(** * botemail: stock / weather e-mail notifier

    A shallow embedding of [stock-ws-emailer.js] (the polling server that
    enforces e-mail verification) and of the WebSocket variant of the same
    server, together with the properties of the notification core:
    message composition, change detection, the verification / subscription
    state machine and the expiry sweep.

    Conventions of the embedding.
    - JavaScript [Map]s keyed by e-mail are [gmap string _]; a [Set] of item
      identifiers is a [gset string].  Iteration order of a [Map] is its
      insertion order in JavaScript and the order of [map_to_list] here; no
      property below depends on it.
    - A value that may be [undefined] (a missing query parameter, a missing
      JSON field) is an [option].
    - [Date.now()] and the random token of [generateVerificationToken] are
      inputs of the step that reads them.
    - [String.prototype.trim] and [JSON.stringify] belong to the runtime;
      they are section variables and every result holds for any choice.
    - Quantities and durations are kept as the integers of the payload.
      Comparing one with 0 gives the same answer on the integer as on the
      number read from it; where the program computes with one
      ([Math.floor(duration / 60)]) the rounding of the number format is
      written out.
    - HTML bodies are kept as structured values carrying exactly the data
      interpolated into the template literals; styling is dropped.
    - [broadcastLog] lines and [sendMail] calls are returned, in program
      order, as a list of effects. *)

From stdpp Require Import gmap strings list fin_maps pretty.
From Stdlib Require Import Ascii.

Local Open Scope Z_scope.

(** ** Numbers

    A JavaScript number is an IEEE 754 binary64 value.  [Finite m e] is the
    value [m * 2^e]; a result too large for the format is an infinity.
    Conversion and division round to the nearest value of the format, ties
    to the one with an even significand.  The two zeros are not told apart
    (nothing below divides by a number or prints a zero's sign), and no
    operation below yields a NaN. *)

Inductive Number :=
  | Finite (m e : Z)
  | Infinity (negative : bool).

(** [n / d] rounded to the nearest integer, ties to even ([0 < d]). *)
Definition nearestEven (n d : Z) : Z :=
  let q := n `div` d in
  let r := n `mod` d in
  if bool_decide (2 * r < d) then q
  else if bool_decide (d < 2 * r) then q + 1
  else if Z.even q then q else q + 1.

(** [(n / d) / 2^e] as a fraction. *)
Definition scaled (n d e : Z) : Z * Z :=
  (n * 2 ^ Z.max 0 (- e), d * 2 ^ Z.max 0 e).

(** The [l] with [2^l ≤ n / d < 2^(l+1)], for [0 < n] and [0 < d]. *)
Definition binade (n d : Z) : Z :=
  let l := Z.log2 n - Z.log2 d in
  let '(a, b) := scaled n d l in
  if bool_decide (b ≤ a) then l else l - 1.

(** The number nearest to [n / d], negated if [negative], for [0 ≤ n] and
    [0 < d]: a significand of 53 bits, an exponent of -1074 at least
    (gradual underflow), and an infinity from [2^1024] on. *)
Definition round64 (negative : bool) (n d : Z) : Number :=
  if bool_decide (n = 0) then Finite 0 0
  else
    let e := Z.max (binade n d - 52) (-1074) in
    let '(a, b) := scaled n d e in
    let m := nearestEven a b in
    if bool_decide (2 ^ 1024 ≤ m * 2 ^ Z.max 0 e) then Infinity negative
    else Finite (if negative then - m else m) e.

(** The number that [JSON.parse] reads from an integer literal. *)
Definition toNumber (z : Z) : Number :=
  round64 (bool_decide (z < 0)) (Z.abs z) 1.

(** [x / k] for a positive integer [k] that the format holds exactly. *)
Definition divide (x : Number) (k : Z) : Number :=
  match x with
  | Finite m e =>
      let '(n, d) := scaled (Z.abs m) k (- e) in
      round64 (bool_decide (m < 0)) n d
  | Infinity negative => Infinity negative
  end.

(** [Math.floor] *)
Definition floor (x : Number) : Number :=
  match x with
  | Finite m e => Finite ((m * 2 ^ Z.max 0 e) `div` 2 ^ Z.max 0 (- e)) 0
  | Infinity negative => Infinity negative
  end.

(** The numbers that are falsy in a condition. *)
Definition isZero (x : Number) : bool :=
  match x with
  | Finite m _ => bool_decide (m = 0)
  | Infinity _ => false
  end.

(** ** Upstream payloads *)

(** One entry of a stock category, as parsed from the upstream JSON. *)
Record StockItem := {
  item_id : option string;
  display_name : option string;
  quantity : Z;
}.

(** [data[category]] is an array for the categories present in the payload. *)
Abbreviation StockData := (gmap string (list StockItem)).

(** [duration] is the integer literal of the payload; the program works on
    the number [toNumber] makes of it. *)
Record WeatherEvent := {
  weather_id : string;
  weather_name : option string;
  active : bool;
  duration : Z;
}.

Record WeatherData := {
  weather : option (list WeatherEvent);
  discord_invite : option string;
}.

(** An entry of the item catalogue ([itemInfo]). *)
Record ItemInfo := {
  info_item_id : string;
  info_icon : option string;
}.

(** ** Store *)

Record PendingVerification := {
  token : string;
  timestamp : Z;
}.

Record VerifiedEmail := {
  verified : bool;
  verified_timestamp : Z;
}.

Record State := {
  latestStockDataJSON : option string;
  latestStockDataObj : option StockData;
  latestWeatherDataJSON : option string;
  latestWeatherDataObj : option WeatherData;
  itemInfo : list ItemInfo;
  pendingVerifications : gmap string PendingVerification;
  verifiedEmails : gmap string VerifiedEmail;
  subscriptions : gmap string (gset string);
}.

(** The module-level initialisers. *)
Definition initialState : State := {|
  latestStockDataJSON := None;
  latestStockDataObj := None;
  latestWeatherDataJSON := None;
  latestWeatherDataObj := None;
  itemInfo := [];
  pendingVerifications := ∅;
  verifiedEmails := ∅;
  subscriptions := ∅;
|}.

(** ** Messages, log lines, responses *)

Record StockRow := {
  row_name : string;
  row_icon : string;
  row_qty : Z;
}.

Inductive MailBody :=
  | StockBody (rows : list StockRow) (unsub_email : string)
  | WeatherBody (event_name : string) (minutes : option Number)
      (invite : option string) (unsub_email : string)
  | VerificationBody (email token : string)
  | TestBody.

Inductive Subject :=
  | SubjStockUpdated
  | SubjWeatherEvent (name : string)
  | SubjVerify
  | SubjTest.

Record Mail := {
  mail_to : string;
  mail_subject : Subject;
  mail_html : MailBody;
}.

(** What the mail relay answers to one [sendVerificationEmail]. *)
Inductive RelayOutcome :=
  | SmtpVerifyError (msg : string)
  | SendMailError (msg : string)
  | Delivered (response : string).

Inductive LogMsg :=
  | LogItemInfoLoaded (n : nat)
  | LogItemInfoError (msg : string)
  | LogStockChanged
  | LogStockUnchanged
  | LogStockError (msg : string)
  | LogWeatherChanged
  | LogNewWeather (name : option string)
  | LogWeatherEnded (name : option string)
  | LogNoNewWeather
  | LogWeatherUnchanged
  | LogWeatherError (msg : string)
  | LogExpired (email : string)
  | LogRequestNoEmail
  | LogRequestAlreadySubscribed (email : string)
  | LogRequestProcessing (email : string)
  | LogSmtpError (msg : string)
  | LogSmtpVerified
  | LogVerificationMailError (email msg : string)
  | LogVerificationMailSent (email response : string)
  | LogVerifyInvalidLink
  | LogVerifyFailed (email : string)
  | LogVerified (email : string)
  | LogSubscribeInvalid (email : option string)
  | LogSubscribeNotVerified (email : string)
  | LogSubscribed (email : string) (n : nat)
  | LogUnsubNoEmail
  | LogUnsubscribed (email : string)
  | LogUnsubNotFound (email : string)
  | LogTestEmail (email : string).

Inductive Effect :=
  | Log (msg : LogMsg)
  | SendMail (m : Mail).

Inductive Response :=
  | Json (status : nat) (success : bool) (message : string)
  | JsonVerified (status : nat) (is_verified : bool) (message : option string)
  | JsonItems (items : list ItemInfo)
  | Send (status : nat) (text : string)
  | RedirectVerified (email : string)
  | RedirectUnsubscribed.

(** ** JavaScript helpers *)

(** [a || d] for a possibly missing string [a]: the empty string is falsy. *)
Definition or_else (a : option string) (d : string) : string :=
  match a with
  | Some s => if String.eqb s "" then d else s
  | None => d
  end.

(** [!s] for a possibly missing string. *)
Definition falsy (a : option string) : bool :=
  match a with
  | Some s => String.eqb s ""
  | None => true
  end.

(** [`${x}`] for a possibly missing string. *)
Definition interpolate (a : option string) : string := default "undefined" a.

(** ** Notification composer, stock path *)

Definition stockCategories : list string :=
  ["seed_stock"; "gear_stock"; "egg_stock"; "cosmetic_stock"; "event_stock"].

(** The [forEach] that pushes every array-valued category. *)
Definition allStockItems (data : StockData) : list StockItem :=
  foldl (λ acc category,
           match data !! category with
           | Some items => acc ++ items
           | None => acc
           end) [] stockCategories.

(** [userSelections.has(item.item_id) && item.quantity > 0] *)
Definition selected (userSelections : gset string) (item : StockItem) : bool :=
  match item_id item with
  | Some i => bool_decide (i ∈ userSelections)
  | None => false
  end && bool_decide (0 < quantity item).

Definition inStockItems (userSelections : gset string) (data : StockData)
  : list StockItem :=
  List.filter (selected userSelections) (allStockItems data).

Definition iconUrl (info : list ItemInfo) (item : StockItem) : string :=
  let itemData :=
    List.find (λ i, bool_decide (Some (info_item_id i) = item_id item)) info in
  or_else (itemData ≫= info_icon)
    ("https://image.joshlei.com/" +:+ interpolate (item_id item) +:+ ".png").

Definition stockRow (info : list ItemInfo) (item : StockItem) : StockRow := {|
  row_name := or_else (display_name item) (or_else (item_id item) "Unknown");
  row_icon := iconUrl info item;
  row_qty := quantity item;
|}.

Definition buildStockHtmlEmail (st : State) (data : StockData)
    (recipientEmail : string) : option MailBody :=
  match subscriptions st !! recipientEmail with
  | None => None
  | Some userSelections =>
      let items := inStockItems userSelections data in
      if bool_decide (0 < length items)%nat
      then Some (StockBody (stockRow (itemInfo st) <$> items) recipientEmail)
      else None
  end.

(** ** Notification composer, weather path *)

Definition eventTitle (weatherEvent : WeatherEvent) : string :=
  or_else (weather_name weatherEvent)
    (or_else (Some (weather_id weatherEvent)) "Unknown").

Definition buildWeatherHtmlEmail (weatherEvent : WeatherEvent)
    (discordInvite : option string) (recipientEmail : string) : MailBody :=
  WeatherBody (eventTitle weatherEvent)
    (let seconds := toNumber (duration weatherEvent) in
     if isZero seconds then None else Some (floor (divide seconds 60)))
    (if falsy discordInvite then None else discordInvite)
    recipientEmail.

(** [transporter.sendMail(mailOptions, callback)]; the callback only logs. *)
Definition sendEmail (subject : Subject) (htmlBody : MailBody)
    (recipientEmail : string) : list Effect :=
  [SendMail {| mail_to := recipientEmail;
               mail_subject := subject;
               mail_html := htmlBody |}].

(** [data.weather?.find(w => w.active)] *)
Definition activeEventOf (data : WeatherData) : option WeatherEvent :=
  weather data ≫= List.find active.

(** ** Change detector *)

Definition hasDataChanged (oldJSON : option string) (newJSON : string) : bool :=
  bool_decide (oldJSON ≠ Some newJSON).

(** ** Record updates *)

Definition set_stock (json : string) (obj : StockData) (st : State) : State := {|
  latestStockDataJSON := Some json;
  latestStockDataObj := Some obj;
  latestWeatherDataJSON := latestWeatherDataJSON st;
  latestWeatherDataObj := latestWeatherDataObj st;
  itemInfo := itemInfo st;
  pendingVerifications := pendingVerifications st;
  verifiedEmails := verifiedEmails st;
  subscriptions := subscriptions st;
|}.

Definition set_weather (json : string) (obj : WeatherData) (st : State) : State := {|
  latestStockDataJSON := latestStockDataJSON st;
  latestStockDataObj := latestStockDataObj st;
  latestWeatherDataJSON := Some json;
  latestWeatherDataObj := Some obj;
  itemInfo := itemInfo st;
  pendingVerifications := pendingVerifications st;
  verifiedEmails := verifiedEmails st;
  subscriptions := subscriptions st;
|}.

Definition set_itemInfo (info : list ItemInfo) (st : State) : State := {|
  latestStockDataJSON := latestStockDataJSON st;
  latestStockDataObj := latestStockDataObj st;
  latestWeatherDataJSON := latestWeatherDataJSON st;
  latestWeatherDataObj := latestWeatherDataObj st;
  itemInfo := info;
  pendingVerifications := pendingVerifications st;
  verifiedEmails := verifiedEmails st;
  subscriptions := subscriptions st;
|}.

Definition set_pendingVerifications (p : gmap string PendingVerification)
    (st : State) : State := {|
  latestStockDataJSON := latestStockDataJSON st;
  latestStockDataObj := latestStockDataObj st;
  latestWeatherDataJSON := latestWeatherDataJSON st;
  latestWeatherDataObj := latestWeatherDataObj st;
  itemInfo := itemInfo st;
  pendingVerifications := p;
  verifiedEmails := verifiedEmails st;
  subscriptions := subscriptions st;
|}.

Definition set_verifiedEmails (v : gmap string VerifiedEmail)
    (st : State) : State := {|
  latestStockDataJSON := latestStockDataJSON st;
  latestStockDataObj := latestStockDataObj st;
  latestWeatherDataJSON := latestWeatherDataJSON st;
  latestWeatherDataObj := latestWeatherDataObj st;
  itemInfo := itemInfo st;
  pendingVerifications := pendingVerifications st;
  verifiedEmails := v;
  subscriptions := subscriptions st;
|}.

Definition set_subscriptions (s : gmap string (gset string))
    (st : State) : State := {|
  latestStockDataJSON := latestStockDataJSON st;
  latestStockDataObj := latestStockDataObj st;
  latestWeatherDataJSON := latestWeatherDataJSON st;
  latestWeatherDataObj := latestWeatherDataObj st;
  itemInfo := itemInfo st;
  pendingVerifications := pendingVerifications st;
  verifiedEmails := verifiedEmails st;
  subscriptions := s;
|}.

(** ** Upstream client *)

(** A fetch either yields the parsed body or throws (network error, status
    outside 2xx); [msg] is the message of the error. *)
Inductive FetchResult (A : Type) :=
  | FetchOk (data : A)
  | FetchError (msg : string).
Arguments FetchOk {A} data.
Arguments FetchError {A} msg.

(** An entry of the catalogue as received, before filtering. *)
Record RawItemInfo := {
  raw_item_id : option string;
  raw_icon : option string;
}.

(** [Object.values(data).filter(item => item && item.item_id && ...)] *)
Definition keepItemInfo (raw : list RawItemInfo) : list ItemInfo :=
  omap (λ r, match raw_item_id r with
             | Some i => if String.eqb i "" then None
                         else Some {| info_item_id := i; info_icon := raw_icon r |}
             | None => None
             end) raw.

Definition fetchItemInfo (resp : FetchResult (list RawItemInfo)) (st : State)
  : State * list Effect :=
  match resp with
  | FetchOk data =>
      let info := keepItemInfo data in
      (set_itemInfo info st, [Log (LogItemInfoLoaded (length info))])
  | FetchError msg =>
      (set_itemInfo [] st, [Log (LogItemInfoError msg)])
  end.

(** ** Expiry sweep *)

Definition expirationTime : Z := 24 * 60 * 60 * 1000.

Definition expired (now : Z) (v : PendingVerification) : Prop :=
  now - timestamp v > expirationTime.

Global Instance expired_dec now v : Decision (expired now v).
Proof. unfold expired. apply _. Defined.

(** The body of the hourly [setInterval] callback. *)
Definition sweep (now : Z) (st : State) : State * list Effect :=
  let dead := filter (λ kv, expired now kv.2) (pendingVerifications st) in
  (set_pendingVerifications
     (filter (λ kv, ¬ expired now kv.2) (pendingVerifications st)) st,
   (λ kv, Log (LogExpired kv.1)) <$> map_to_list dead).

(** ** HTTP surface and pollers *)

(** [req.body.items]: an array of identifiers, or any other value. *)
Inductive ItemsField :=
  | ItemsArray (items : list string)
  | ItemsValue (item : option string).

(** [if (!x) return ...]: the value when it is truthy. *)
Definition truthy (a : option string) : option string :=
  match a with
  | Some s => if String.eqb s "" then None else Some s
  | None => None
  end.

(** [Array.isArray(items) ? items : [items].filter(Boolean)] *)
Definition itemsOf (field : ItemsField) : list string :=
  match field with
  | ItemsArray items => items
  | ItemsValue item => option_list (truthy item)
  end.

(** Everything that drives the server from outside: timer ticks of the two
    pollers with what the upstream answered, and HTTP requests. *)
Inductive Event :=
  | PollStock (resp : FetchResult StockData)
      (infoResp : FetchResult (list RawItemInfo))
  | PollWeather (resp : FetchResult WeatherData)
  | GetCheckVerification (email : option string)
  | PostRequestVerification (email : option string) (newToken : string)
      (relay : RelayOutcome)
  | GetVerify (email queryToken : option string)
  | PostSubscribe (email : option string) (items : ItemsField)
  | GetUnsub (email : option string)
  | GetRefreshItems (infoResp : FetchResult (list RawItemInfo))
  | GetTestEmail (email : option string)
  | Listening (infoResp : FetchResult (list RawItemInfo)).

Section Server.

(** [String.prototype.trim] *)
Variable trim : string → string.
(** [JSON.stringify] on the two upstream payloads *)
Variable stringifyStock : StockData → string.
Variable stringifyWeather : WeatherData → string.

(** [subscriptions.forEach] of the stock path. *)
Definition stockFanout (st : State) (data : StockData) : list Effect :=
  map_to_list (subscriptions st) ≫= λ kv,
    match buildStockHtmlEmail st data kv.1 with
    | Some html => sendEmail SubjStockUpdated html kv.1
    | None => []
    end.

(** [pollStockAPI]; [infoResp] is the answer [fetchItemInfo] gets when the
    catalogue is still empty.  The handler is run to completion: requests
    served while it awaits are ordered before or after it. *)
Definition pollStockAPI (resp : FetchResult StockData)
    (infoResp : FetchResult (list RawItemInfo)) (st : State)
  : State * list Effect :=
  match resp with
  | FetchError msg => (st, [Log (LogStockError msg)])
  | FetchOk data =>
      let newDataJSON := stringifyStock data in
      if hasDataChanged (latestStockDataJSON st) newDataJSON then
        let st1 := set_stock newDataJSON data st in
        let '(st2, fetched) :=
          if bool_decide (length (itemInfo st1) = 0%nat)
          then fetchItemInfo infoResp st1 else (st1, []) in
        (st2, Log LogStockChanged :: fetched ++ stockFanout st2 data)
      else (st, [Log LogStockUnchanged])
  end.

(** [subscriptions.forEach] of the weather path. *)
Definition weatherFanout (st : State) (data : WeatherData)
    (activeEvent : WeatherEvent) : list Effect :=
  map_to_list (subscriptions st) ≫= λ kv,
    sendEmail (SubjWeatherEvent (eventTitle activeEvent))
      (buildWeatherHtmlEmail activeEvent (discord_invite data) kv.1) kv.1.

Definition pollWeatherAPI (resp : FetchResult WeatherData) (st : State)
  : State * list Effect :=
  match resp with
  | FetchError msg => (st, [Log (LogWeatherError msg)])
  | FetchOk data =>
      let newDataJSON := stringifyWeather data in
      if hasDataChanged (latestWeatherDataJSON st) newDataJSON then
        let activeEvent := activeEventOf data in
        let prevActiveEvent := latestWeatherDataObj st ≫= activeEventOf in
        let effects :=
          match activeEvent, prevActiveEvent with
          | Some a, None =>
              Log (LogNewWeather (weather_name a)) :: weatherFanout st data a
          | Some a, Some p =>
              if bool_decide (weather_id a ≠ weather_id p)
              then Log (LogNewWeather (weather_name a))
                     :: weatherFanout st data a
              else [Log LogNoNewWeather]
          | None, Some p => [Log (LogWeatherEnded (weather_name p))]
          | None, None => [Log LogNoNewWeather]
          end in
        (set_weather newDataJSON data st, Log LogWeatherChanged :: effects)
      else (st, [Log LogWeatherUnchanged])
  end.

(** What the relay callbacks of [sendVerificationEmail] do once the relay
    has answered: they log, and send the mail when the connection check
    passed. *)
Definition verificationRelay (mailOptions : Mail) (relay : RelayOutcome)
  : list Effect :=
  match relay with
  | SmtpVerifyError msg => [Log (LogSmtpError msg)]
  | SendMailError msg =>
      [Log LogSmtpVerified; SendMail mailOptions;
       Log (LogVerificationMailError (mail_to mailOptions) msg)]
  | Delivered response =>
      [Log LogSmtpVerified; SendMail mailOptions;
       Log (LogVerificationMailSent (mail_to mailOptions) response)]
  end.

Definition sendVerificationEmail (email newToken : string) (now : Z)
    (relay : RelayOutcome) (st : State) : State * list Effect :=
  let st' :=
    set_pendingVerifications
      (<[email := {| token := newToken; timestamp := now |}]>
         (pendingVerifications st)) st in
  let mailOptions :=
    {| mail_to := email;
       mail_subject := SubjVerify;
       mail_html := VerificationBody email newToken |} in
  (st', verificationRelay mailOptions relay).

(** [GET /check-verification] *)
Definition checkVerification (email : option string) (st : State)
  : State * list Effect * Response :=
  match truthy (trim <$> email) with
  | None => (st, [], JsonVerified 400 false (Some "Email is required"))
  | Some email =>
      (st, [],
       JsonVerified 200 (bool_decide (is_Some (verifiedEmails st !! email))) None)
  end.

(** [POST /request-verification] *)
Definition requestVerification (email : option string) (newToken : string)
    (now : Z) (relay : RelayOutcome) (st : State)
  : State * list Effect * Response :=
  match truthy (trim <$> email) with
  | None =>
      (st, [Log LogRequestNoEmail], Json 400 false "Email is required.")
  | Some email =>
      if bool_decide (is_Some (subscriptions st !! email)) then
        (st, [Log (LogRequestAlreadySubscribed email)],
         Json 400 false "Email is already subscribed.")
      else
        let '(st', sent) := sendVerificationEmail email newToken now relay st in
        (st', Log (LogRequestProcessing email) :: sent,
         Json 200 true "Verification email sent. Please check your inbox.")
  end.

(** [GET /verify] *)
Definition verify (email queryToken : option string) (now : Z) (st : State)
  : State * list Effect * Response :=
  match truthy email, truthy queryToken with
  | Some email, Some tok =>
      match pendingVerifications st !! email with
      | Some verification =>
          if String.eqb (token verification) tok then
            (set_verifiedEmails
               (<[email := {| verified := true; verified_timestamp := now |}]>
                  (verifiedEmails st))
               (set_pendingVerifications
                  (delete email (pendingVerifications st)) st),
             [Log (LogVerified email)], RedirectVerified email)
          else
            (st, [Log (LogVerifyFailed email)],
             Send 400 "Invalid or expired verification link.")
      | None =>
          (st, [Log (LogVerifyFailed email)],
           Send 400 "Invalid or expired verification link.")
      end
  | _, _ => (st, [Log LogVerifyInvalidLink], Send 400 "Invalid verification link.")
  end.

(** [POST /subscribe] *)
Definition subscribe (email : option string) (field : ItemsField) (st : State)
  : State * list Effect * Response :=
  let items := itemsOf field in
  match truthy (trim <$> email) with
  | None =>
      (st, [Log (LogSubscribeInvalid None)], Json 400 false "Invalid input")
  | Some email =>
      if bool_decide (length items = 0%nat) then
        (st, [Log (LogSubscribeInvalid (Some email))],
         Json 400 false "Invalid input")
      else if bool_decide (is_Some (verifiedEmails st !! email)) then
        (set_subscriptions
           (<[email := list_to_set items]> (subscriptions st)) st,
         [Log (LogSubscribed email (length items))],
         Json 200 true "Subscription successful!")
      else
        (st, [Log (LogSubscribeNotVerified email)],
         Json 400 false "Email not verified")
  end.

(** [GET /unsub] *)
Definition unsub (email : option string) (st : State)
  : State * list Effect * Response :=
  match truthy (trim <$> email) with
  | None => (st, [Log LogUnsubNoEmail], Send 400 "Email is required.")
  | Some email =>
      if bool_decide (is_Some (subscriptions st !! email)) then
        (set_verifiedEmails (delete email (verifiedEmails st))
           (set_subscriptions (delete email (subscriptions st)) st),
         [Log (LogUnsubscribed email)], RedirectUnsubscribed)
      else
        (st, [Log (LogUnsubNotFound email)],
         Send 200 "Email not found in subscriptions.")
  end.

(** [GET /refresh-items] *)
Definition refreshItems (infoResp : FetchResult (list RawItemInfo))
    (st : State) : State * list Effect * Response :=
  let '(st', effects) := fetchItemInfo infoResp st in
  (st', effects, JsonItems (itemInfo st')).

(** [GET /test-email] *)
Definition testEmail (email : option string) (st : State)
  : State * list Effect * Response :=
  let target := default "test@example.com" (truthy (trim <$> email)) in
  (st, Log (LogTestEmail target) :: sendEmail SubjTest TestBody target,
   Json 200 true ("Test email sent to " +:+ target)).

(** One event served at time [now]. *)
Definition step (now : Z) (ev : Event) (st : State)
  : State * list Effect * option Response :=
  let http (r : State * list Effect * Response) := (r.1.1, r.1.2, Some r.2) in
  let timer (r : State * list Effect) := (r.1, r.2, None) in
  match ev with
  | PollStock resp infoResp => timer (pollStockAPI resp infoResp st)
  | PollWeather resp => timer (pollWeatherAPI resp st)
  | GetCheckVerification email => http (checkVerification email st)
  | PostRequestVerification email newToken relay =>
      http (requestVerification email newToken now relay st)
  | GetVerify email tok => http (verify email tok now st)
  | PostSubscribe email items => http (subscribe email items st)
  | GetUnsub email => http (unsub email st)
  | GetRefreshItems infoResp => http (refreshItems infoResp st)
  | GetTestEmail email => http (testEmail email st)
  | Listening infoResp => timer (fetchItemInfo infoResp st)
  end.

(** States the server can be in: the initial one, and any state reached by
    serving an event or by a run of the expiry sweep. *)
Inductive reachable : State → Prop :=
  | reachable_initial : reachable initialState
  | reachable_step now ev st :
      reachable st → reachable (step now ev st).1.1
  | reachable_sweep now st :
      reachable st → reachable (sweep now st).1.

(** *** Timers *)

Definition sweepInterval : Z := 60 * 60 * 1000.

(** The times in [(t0, t1]] at which the sweep timer, armed at [start],
    fires: [start + k * sweepInterval] for [k ≥ 1]. *)
Definition sweepsBetween (start t0 t1 : Z) : list Z :=
  let k0 := Z.max 0 ((t0 - start) `div` sweepInterval) in
  let k1 := (t1 - start) `div` sweepInterval in
  (λ i : nat, start + (k0 + 1 + Z.of_nat i) * sweepInterval)
    <$> seq 0 (Z.to_nat (k1 - k0)).

(** The first time later than [t] at which the sweep timer, armed at
    [start], fires. *)
Definition nextSweep (start t : Z) : Z :=
  start + (Z.max 0 ((t - start) `div` sweepInterval) + 1) * sweepInterval.

(** What the sweeps fired in [(T, clock]] leave of an entry issued at
    [T]. *)
Definition fate (start T clock : Z) (issued : PendingVerification)
  : option PendingVerification :=
  if decide (Exists (λ s, expired s issued) (sweepsBetween start T clock))
  then None else Some issued.

(** Let the clock run from [t0] to [t1] with no other event. *)
Definition elapse (start t0 t1 : Z) (st : State) : State :=
  foldl (λ s t, (sweep t s).1) st (sweepsBetween start t0 t1).

(** A timed run from [clock] to [until]: the events are served at the
    times given, the sweep firing in between. *)
Fixpoint serve (start clock : Z) (evs : list (Z * Event)) (until : Z)
    (st : State) : State :=
  match evs with
  | [] => elapse start clock until st
  | (t, ev) :: evs' =>
      serve start t evs' until (step t ev (elapse start clock t st)).1.1
  end.

(** The times of a run do not go backwards. *)
Fixpoint chronological (clock : Z) (evs : list (Z * Event)) (until : Z) : Prop :=
  match evs with
  | [] => clock ≤ until
  | (t, _) :: evs' => clock ≤ t ∧ chronological t evs' until
  end.

(** The requests that read or write the pending verification of [e]. *)
Definition concerns (e : string) (ev : Event) : Prop :=
  match ev with
  | PostRequestVerification email _ _ => truthy (trim <$> email) = Some e
  | GetVerify email _ => email = Some e
  | _ => False
  end.

End Server.

(** ** Regular expressions

    The fragment of JavaScript regular expressions the variant validates
    e-mails with: character classes, concatenation and repetition, tested
    against a whole string as between [^] and [$]. *)

Inductive Regex :=
  | Never
  | Eps
  | Class (p : Ascii.ascii → bool)
  | Cat (r1 r2 : Regex)
  | Alt (r1 r2 : Regex)
  | Star (r : Regex).

(** [r+] *)
Definition Plus (r : Regex) : Regex := Cat r (Star r).

(** The strings a regular expression denotes. *)
Inductive matches : Regex → list Ascii.ascii → Prop :=
  | matches_eps : matches Eps []
  | matches_class p c : p c = true → matches (Class p) [c]
  | matches_cat r1 r2 u v :
      matches r1 u → matches r2 v → matches (Cat r1 r2) (u ++ v)
  | matches_alt_l r1 r2 u : matches r1 u → matches (Alt r1 r2) u
  | matches_alt_r r1 r2 u : matches r2 u → matches (Alt r1 r2) u
  | matches_star_nil r : matches (Star r) []
  | matches_star_app r u v :
      matches r u → matches (Star r) v → matches (Star r) (u ++ v).

Fixpoint nullable (r : Regex) : bool :=
  match r with
  | Never => false
  | Eps => true
  | Class _ => false
  | Cat r1 r2 => nullable r1 && nullable r2
  | Alt r1 r2 => nullable r1 || nullable r2
  | Star _ => true
  end.

(** What is left to match after reading [c]. *)
Fixpoint derive (c : Ascii.ascii) (r : Regex) : Regex :=
  match r with
  | Never => Never
  | Eps => Never
  | Class p => if p c then Eps else Never
  | Cat r1 r2 =>
      if nullable r1
      then Alt (Cat (derive c r1) r2) (derive c r2)
      else Cat (derive c r1) r2
  | Alt r1 r2 => Alt (derive c r1) (derive c r2)
  | Star r' => Cat (derive c r') (Star r')
  end.

Fixpoint accepts (r : Regex) (w : list Ascii.ascii) : bool :=
  match w with
  | [] => nullable r
  | c :: w' => accepts (derive c r) w'
  end.

(** [/^r$/.test(s)] *)
Definition test (r : Regex) (s : string) : bool :=
  accepts r (String.list_ascii_of_string s).

(** [/^[^\s@]+@[^\s@]+\.[^\s@]+$/], for a white-space class [space]. *)
Definition emailPattern (space : Ascii.ascii → bool) : Regex :=
  let plain := Class (λ c, negb (space c) && negb (Ascii.eqb c "@"%char)) in
  Cat (Plus plain)
    (Cat (Class (Ascii.eqb "@"%char))
       (Cat (Plus plain)
          (Cat (Class (Ascii.eqb "."%char)) (Plus plain)))).

(** ** The WebSocket variant

    The same server fed by a push connection.  It keeps no [verifiedEmails]
    map (that field of [State] stays untouched), filters out stock entries
    without an identifier, and retries a failed weather poll. *)
Module WsVariant.

Inductive WsResponse :=
  | WsSend (status : nat) (text : string)
  | WsRedirectVerified (email : option string)
  | WsRedirectSubscribed
  | WsRedirectError (msg : string)
  | WsRedirectUnsubscribed.

Inductive WsLog :=
  | WsLogPollingWeather (attempt maxAttempts : nat)
  | WsLogWeatherChanged
  | WsLogNewWeather (name : option string)
  | WsLogWeatherEnded (name : option string)
  | WsLogWeatherError (msg : string)
  | WsLogVerificationAttempt (email : option string)
  | WsLogVerificationFailed (email : option string)
  | WsLogVerificationSuccessful (email : option string)
  | WsLogSubscriptionAttempt (email : option string) (n : nat)
  | WsLogSubscriptionFailed (email : option string) (n : nat)
  | WsLogSubscribed (email : string) (n : nat)
  | WsLogUnsubscribeAttempt (email : option string)
  | WsLogUnsubscribed (email : option string)
  | WsLogUnsubscribeFailed (email : option string).

Inductive WsEffect :=
  | WsLog_ (msg : WsLog)
  | WsSendMail (m : Mail)
  | WsSetTimeout (delay : Z) (attempt : nat).

Definition stockCategories : list string :=
  ["seed_stock"; "gear_stock"; "egg_stock"; "cosmetic_stock"; "eventshop_stock"].

(** [item => item.item_id] *)
Definition hasId (item : StockItem) : bool := negb (falsy (item_id item)).

Definition allStockItems (data : StockData) : list StockItem :=
  foldl (λ acc category,
           match data !! category with
           | Some items => acc ++ List.filter hasId items
           | None => acc
           end) [] stockCategories.

Definition inStockItems (userSelections : gset string) (data : StockData)
  : list StockItem :=
  List.filter (selected userSelections) (allStockItems data).

Definition iconUrl (info : list ItemInfo) (item : StockItem) : string :=
  let itemData :=
    List.find (λ i, bool_decide (Some (info_item_id i) = item_id item)) info in
  or_else (itemData ≫= info_icon)
    ("https://api.joshlei.com/v2/growagarden/image/" +:+ interpolate (item_id item)).

Definition stockRow (info : list ItemInfo) (item : StockItem) : StockRow := {|
  row_name := or_else (display_name item) (or_else (item_id item) "Unknown");
  row_icon := iconUrl info item;
  row_qty := quantity item;
|}.

Definition buildStockHtmlEmail (st : State) (data : StockData)
    (recipientEmail : string) : option MailBody :=
  match subscriptions st !! recipientEmail with
  | None => None
  | Some userSelections =>
      let items := inStockItems userSelections data in
      let hasItems := bool_decide (0 < length items)%nat in
      if hasItems
      then Some (StockBody (stockRow (itemInfo st) <$> List.filter hasId items)
                   recipientEmail)
      else None
  end.

Section Server.

Variable trim : string → string.
Variable stringifyWeather : WeatherData → string.

Definition weatherFanout (st : State) (data : WeatherData)
    (activeEvent : WeatherEvent) : list WsEffect :=
  map_to_list (subscriptions st) ≫= λ kv,
    [WsSendMail
       {| mail_to := kv.1;
          mail_subject := SubjWeatherEvent (interpolate (weather_name activeEvent));
          mail_html := buildWeatherHtmlEmail activeEvent (discord_invite data) kv.1 |}].

(** [catch]: log, and re-arm with exponential backoff. *)
Definition weatherFailed (msg : string) (attempt maxAttempts : nat)
  : list WsEffect :=
  WsLog_ (WsLogWeatherError msg)
    :: (if bool_decide (attempt < maxAttempts)%nat
        then [WsSetTimeout (2 ^ Z.of_nat attempt * 1000) (attempt + 1)]
        else []).

(** [x.weather.find(w => w.active)]: a [TypeError] when [weather] is
    missing. *)
Definition findActive (data : WeatherData) : option (option WeatherEvent) :=
  List.find active <$> weather data.

Definition pollWeatherAPI (resp : FetchResult WeatherData)
    (attempt maxAttempts : nat) (st : State) : State * list WsEffect :=
  let polling := WsLog_ (WsLogPollingWeather attempt maxAttempts) in
  match resp with
  | FetchError msg => (st, polling :: weatherFailed msg attempt maxAttempts)
  | FetchOk data =>
      let newDataJSON := stringifyWeather data in
      if hasDataChanged (latestWeatherDataJSON st) newDataJSON then
        let found :=
          activeEvent ← findActive data;
          prevActiveEvent ← match latestWeatherDataObj st with
                            | Some obj => findActive obj
                            | None => Some None
                            end;
          Some (activeEvent, prevActiveEvent) in
        match found with
        | None =>
            (st, polling :: WsLog_ WsLogWeatherChanged
                   :: weatherFailed "TypeError" attempt maxAttempts)
        | Some (activeEvent, prevActiveEvent) =>
            let effects :=
              match activeEvent, prevActiveEvent with
              | Some a, None =>
                  WsLog_ (WsLogNewWeather (weather_name a))
                    :: weatherFanout st data a
              | Some a, Some p =>
                  if bool_decide (weather_id a ≠ weather_id p)
                  then WsLog_ (WsLogNewWeather (weather_name a))
                         :: weatherFanout st data a
                  else []
              | None, Some p => [WsLog_ (WsLogWeatherEnded (weather_name p))]
              | None, None => []
              end in
            (set_weather newDataJSON data st,
             polling :: WsLog_ WsLogWeatherChanged :: effects)
        end
      else (st, [polling])
  end.

(** [GET /verify] *)
Definition verify (email queryToken : option string) (st : State)
  : State * list WsEffect * WsResponse :=
  let failed :=
    (st, [WsLog_ (WsLogVerificationAttempt email);
          WsLog_ (WsLogVerificationFailed email)],
     WsSend 400 "Invalid or expired verification link.") in
  match email ≫= λ e, pendingVerifications st !! e with
  | Some verification =>
      if bool_decide (Some (token verification) = queryToken) then
        (set_pendingVerifications
           (from_option (λ e, delete e (pendingVerifications st))
              (pendingVerifications st) email) st,
         [WsLog_ (WsLogVerificationAttempt email);
          WsLog_ (WsLogVerificationSuccessful email)],
         WsRedirectVerified email)
      else failed
  | None => failed
  end.

(** [POST /subscribe] *)
Definition subscribe (email : option string) (field : ItemsField)
    (st : State) : State * list WsEffect * WsResponse :=
  let email := trim <$> email in
  let items := itemsOf field in
  let attempt := WsLog_ (WsLogSubscriptionAttempt email (length items)) in
  match truthy email with
  | None =>
      (st, [attempt; WsLog_ (WsLogSubscriptionFailed email (length items))],
       WsRedirectError "Invalid input")
  | Some e =>
      if bool_decide (length items = 0%nat) then
        (st, [attempt; WsLog_ (WsLogSubscriptionFailed email (length items))],
         WsRedirectError "Invalid input")
      else
        (set_subscriptions (<[e := list_to_set items]> (subscriptions st)) st,
         [attempt; WsLog_ (WsLogSubscribed e (length items))],
         WsRedirectSubscribed)
  end.

(** [GET /unsub] *)
Definition unsub (email : option string) (st : State)
  : State * list WsEffect * WsResponse :=
  let email := trim <$> email in
  let attempt := WsLog_ (WsLogUnsubscribeAttempt email) in
  match email with
  | Some e =>
      if bool_decide (is_Some (subscriptions st !! e)) then
        (set_subscriptions (delete e (subscriptions st)) st,
         [attempt; WsLog_ (WsLogUnsubscribed email)], WsRedirectUnsubscribed)
      else
        (st, [attempt; WsLog_ (WsLogUnsubscribeFailed email)],
         WsSend 404 "Email not found.")
  | None =>
      (st, [attempt; WsLog_ (WsLogUnsubscribeFailed email)],
       WsSend 404 "Email not found.")
  end.

End Server.

(** *** The catalogue, the push connection and the verification mail *)

(** An entry of the catalogue as the info endpoint delivers it. *)
Record CatalogueItem := {
  cat_item_id : option string;
  cat_display_name : option string;
  cat_icon : option string;
}.

(** The shapes of body [fetchItemInfo] tells apart. *)
Inductive ItemInfoPayload :=
  | PayloadArray (items : list CatalogueItem)
  | PayloadItems (items : list CatalogueItem)
  | PayloadDictionary (values : list CatalogueItem)
  | PayloadPrimitive
  | PayloadNull.

Inductive FeedLog :=
  | LogFetchingItemInfo (attempt maxAttempts : nat)
  | LogRawItemInfo
  | LogItemInfoIsArray
  | LogItemInfoFromItems
  | LogItemInfoFromDictionary
  | LogItemInfoUnusable
  | LogFetchedItems (n : nat)
  | LogSampleItem (item : CatalogueItem)
  | LogItemInfoFailed (msg : string)
  | LogRetryingIn (seconds : Z)
  | LogMaxRetries
  | LogStockMessage
  | LogNoStockChanges
  | LogWebSocketError (msg : string)
  | LogInvalidEmailFormat (email : string)
  | LogMailError (email msg : string)
  | LogSmtpAuthFailed
  | LogInvalidEnvelope
  | LogMailSent (email response : string)
  | LogVerificationRequest
  | LogNoEmailProvided
  | LogInvalidEmail (email : string)
  | LogAlreadySubscribed (email : string)
  | LogVerificationSent (email : string)
  | LogVerificationNotSent (email : string)
  | LogVerificationError (email msg : string)
  | LogTestVerification (email : string)
  | LogTestEmailError (msg : string).

Inductive FeedEffect :=
  | FeedLog_ (msg : FeedLog)
  | FeedSendMail (m : Mail)
  | FeedSetTimeout (delay : Z) (attempt : nat).

(** What [transporter.sendMail] reports to its callback. *)
Inductive MailResult :=
  | MailError (code msg : string)
  | MailSent (response : string).

(** How the promise of [sendVerificationEmail] settles. *)
Inductive Settled :=
  | Resolved (value : bool)
  | Rejected (msg : string).

Inductive JsonResponse :=
  | JsonReply (status : nat) (success : bool) (message : string).

(** [item => item.item_id && item.display_name] *)
Definition usable (item : CatalogueItem) : bool :=
  negb (falsy (cat_item_id item)) && negb (falsy (cat_display_name item)).

(** The body of the [try] block after the fetch: [None] when it throws. *)
Definition readItemInfo (data : ItemInfoPayload)
  : option (list CatalogueItem * FeedLog) :=
  match data with
  | PayloadArray items => Some (items, LogItemInfoIsArray)
  | PayloadItems items => Some (items, LogItemInfoFromItems)
  | PayloadDictionary values => Some (values, LogItemInfoFromDictionary)
  | PayloadPrimitive => Some ([], LogItemInfoUnusable)
  | PayloadNull => None
  end.

(** The [catch] block of [fetchItemInfo]. *)
Definition itemInfoFailed (msg : string) (attempt maxAttempts : nat)
    (itemInfo : list CatalogueItem) : list CatalogueItem * list FeedEffect :=
  if bool_decide (attempt < maxAttempts)%nat then
    let delay := 2 ^ Z.of_nat attempt * 1000 in
    (itemInfo,
     [FeedLog_ (LogItemInfoFailed msg); FeedLog_ (LogRetryingIn (delay `div` 1000));
      FeedSetTimeout delay (attempt + 1)])
  else
    ([], [FeedLog_ (LogItemInfoFailed msg); FeedLog_ LogMaxRetries]).

(** One run of [fetchItemInfo(attempt, maxAttempts)] on the variable
    [itemInfo], given what the fetch answered. *)
Definition fetchItemInfo (resp : FetchResult ItemInfoPayload)
    (attempt maxAttempts : nat) (itemInfo : list CatalogueItem)
  : list CatalogueItem * list FeedEffect :=
  let fetching := FeedLog_ (LogFetchingItemInfo attempt maxAttempts) in
  match resp with
  | FetchError msg =>
      let '(info, effects) := itemInfoFailed msg attempt maxAttempts itemInfo in
      (info, fetching :: effects)
  | FetchOk data =>
      match readItemInfo data with
      | None =>
          let '(info, effects) :=
            itemInfoFailed "TypeError" attempt maxAttempts itemInfo in
          (info, fetching :: FeedLog_ LogRawItemInfo :: effects)
      | Some (items, shape) =>
          let kept := List.filter usable items in
          (kept,
           [fetching; FeedLog_ LogRawItemInfo; FeedLog_ shape;
            FeedLog_ (LogFetchedItems (length kept))]
           ++ match kept with
              | sample :: _ => [FeedLog_ (LogSampleItem sample)]
              | [] => []
              end)
      end
  end.





Definition feedMailsOf (effects : list FeedEffect) : list Mail :=
  omap (λ e, match e with FeedSendMail m => Some m | _ => None end) effects.

Section Feed.

Variable trim : string → string.
Variable stringifyStock : StockData → string.
(** The class [\s] of the regular expression *)
Variable space : Ascii.ascii → bool.

(** The [for] loop of the message handler: every array-valued category is
    replaced by its entries that carry an identifier. *)
Definition keepIdentified (newData : StockData) : StockData :=
  foldl (λ data category,
           match data !! category with
           | Some items => <[category := List.filter hasId items]> data
           | None => data
           end) newData stockCategories.

Definition stockFanout (st : State) (newData : StockData) : list FeedEffect :=
  map_to_list (subscriptions st) ≫= λ kv,
    match buildStockHtmlEmail st newData kv.1 with
    | Some html =>
        [FeedSendMail {| mail_to := kv.1; mail_subject := SubjStockUpdated;
                         mail_html := html |}]
    | None => []
    end.

(** [ws.on('message', ...)]: [parsed] is the result of [JSON.parse], [None]
    when it throws. *)
Definition onMessage (parsed : option StockData) (st : State)
  : State * list FeedEffect :=
  match parsed with
  | None => (st, [FeedLog_ (LogWebSocketError "SyntaxError")])
  | Some newData =>
      let newDataJSON := stringifyStock newData in
      let newData := keepIdentified newData in
      if hasDataChanged (latestStockDataJSON st) newDataJSON then
        let st' := set_stock newDataJSON newData st in
        (st', FeedLog_ LogStockMessage :: stockFanout st' newData)
      else (st, [FeedLog_ LogNoStockChanges])
  end.

Definition sendVerificationEmail (email newToken : string) (now : Z)
    (relay : MailResult) (st : State) : State * list FeedEffect * Settled :=
  if negb (test (emailPattern space) email) then
    (st, [FeedLog_ (LogInvalidEmailFormat email)], Resolved false)
  else
    let st' :=
      set_pendingVerifications
        (<[email := {| token := newToken; timestamp := now |}]>
           (pendingVerifications st)) st in
    let mailOptions :=
      {| mail_to := email; mail_subject := SubjVerify;
         mail_html := VerificationBody email newToken |} in
    match relay with
    | MailError code msg =>
        (st',
         FeedSendMail mailOptions :: FeedLog_ (LogMailError email msg)
           :: (if String.eqb code "EAUTH" then [FeedLog_ LogSmtpAuthFailed]
               else if String.eqb code "EENVELOPE" then [FeedLog_ LogInvalidEnvelope]
               else []),
         Rejected msg)
    | MailSent response =>
        (st', [FeedSendMail mailOptions; FeedLog_ (LogMailSent email response)],
         Resolved true)
    end.

(** What both callers do with the settled promise. *)
Definition answer (sent notSent : string) (failed : string → FeedLog)
    (settled : Settled) (onSuccess onFailure : list FeedEffect)
  : list FeedEffect * JsonResponse :=
  match settled with
  | Resolved true => (onSuccess, JsonReply 200 true sent)
  | Resolved false => (onFailure, JsonReply 400 false notSent)
  | Rejected msg => ([FeedLog_ (failed msg)], JsonReply 500 false "Server error.")
  end.

(** [POST /request-verification] *)
Definition requestVerification (email : option string) (newToken : string)
    (now : Z) (relay : MailResult) (st : State)
  : State * list FeedEffect * JsonResponse :=
  match truthy (trim <$> email) with
  | None =>
      (st, [FeedLog_ LogVerificationRequest; FeedLog_ LogNoEmailProvided],
       JsonReply 400 false "Email required.")
  | Some email =>
      if negb (test (emailPattern space) email) then
        (st, [FeedLog_ LogVerificationRequest; FeedLog_ (LogInvalidEmail email)],
         JsonReply 400 false "Invalid email format.")
      else if bool_decide (is_Some (subscriptions st !! email)) then
        (st, [FeedLog_ LogVerificationRequest; FeedLog_ (LogAlreadySubscribed email)],
         JsonReply 400 false "Email already subscribed.")
      else
        let '(st', effects, settled) :=
          sendVerificationEmail email newToken now relay st in
        let '(logged, response) :=
          answer "Verification email sent. Check inbox/spam."
            "Failed to send verification email."
            (LogVerificationError email) settled
            [FeedLog_ (LogVerificationSent email)]
            [FeedLog_ (LogVerificationNotSent email)] in
        (st', FeedLog_ LogVerificationRequest :: effects ++ logged, response)
  end.

(** [GET /test-verification] *)
Definition testVerification (email : option string) (newToken : string)
    (now : Z) (relay : MailResult) (st : State)
  : State * list FeedEffect * JsonResponse :=
  let testEmail := default "test@example.com" (truthy email) in
  let '(st', effects, settled) :=
    sendVerificationEmail testEmail newToken now relay st in
  let '(logged, response) :=
    answer "Test email sent." "Failed to send test email."
      LogTestEmailError settled [] [] in
  (st', FeedLog_ (LogTestVerification testEmail) :: effects ++ logged, response).

End Feed.


End WsVariant.

(** ** Observations on effect lists *)

Definition mailsOf (effects : list Effect) : list Mail :=
  omap (λ e, match e with SendMail m => Some m | Log _ => None end) effects.

Definition wsMailsOf (effects : list WsVariant.WsEffect) : list Mail :=
  omap (λ e, match e with WsVariant.WsSendMail m => Some m | _ => None end) effects.

(** Number of mails addressed to [email]. *)
Definition mailsTo (email : string) (mails : list Mail) : nat :=
  length (List.filter (λ m, bool_decide (mail_to m = email)) mails).

Definition isWeatherMail (m : Mail) : bool :=
  match mail_subject m with SubjWeatherEvent _ => true | _ => false end.

(** The identifier of the active event of a snapshot, if any. *)
Definition activeId (data : option WeatherData) : option string :=
  weather_id <$> (data ≫= activeEventOf).

(** The state records [prev] as the last weather snapshot seen. *)
Definition lastWeather (stringifyWeather : WeatherData → string)
    (st : State) (prev : option WeatherData) : Prop :=
  latestWeatherDataObj st = prev ∧
  latestWeatherDataJSON st = stringifyWeather <$> prev.

(** The response of a successful [GET /verify]. *)
Definition verifySucceeded (r : Response) : bool :=
  match r with RedirectVerified _ => true | _ => false end.

(** A response that grants what was asked; the others are the 400 answers,
    the plain-text error pages and the not-found page. *)
Definition accepted (r : Response) : bool :=
  match r with
  | Json _ success _ => success
  | JsonVerified status _ _ => bool_decide (status = 200%nat)
  | JsonItems _ => true
  | Send _ _ => false
  | RedirectVerified _ => true
  | RedirectUnsubscribed => true
  end.

(** The stock mail [buildStockHtmlEmail] composes for one binding of
    [subscriptions], if any. *)
Definition stockMailFor (st : State) (data : StockData)
    (kv : string * gset string) : option Mail :=
  html ← buildStockHtmlEmail st data kv.1;
  Some {| mail_to := kv.1; mail_subject := SubjStockUpdated; mail_html := html |}.

(** The stock mail the composer of the variant makes for one binding of
    [subscriptions], if any. *)
Definition wsStockMailFor (st : State) (data : StockData)
    (kv : string * gset string) : option Mail :=
  html ← WsVariant.buildStockHtmlEmail st data kv.1;
  Some {| mail_to := kv.1; mail_subject := SubjStockUpdated; mail_html := html |}.


(** ** Concrete instances

    A runtime to evaluate the server on: a [trim] for ASCII white space and
    printers standing for [JSON.stringify], with a few stores and payloads. *)
Module Example.

Fixpoint trimStart (s : string) : string :=
  match s with
  | String c s' => if Ascii.is_space c then trimStart s' else s
  | EmptyString => EmptyString
  end.

Definition trim (s : string) : string :=
  String.rev (trimStart (String.rev (trimStart s))).

Definition showName (a : option string) : string :=
  match a with Some s => "'" +:+ s +:+ "'" | None => "null" end.

Definition showItem (item : StockItem) : string :=
  "{" +:+ showName (item_id item) +:+ "," +:+ showName (display_name item)
      +:+ "," +:+ pretty (quantity item) +:+ "}".

Definition stringifyStock (data : StockData) : string :=
  String.concat ";"
    ((λ kv, kv.1 +:+ ":[" +:+ String.concat "," (showItem <$> kv.2) +:+ "]")
       <$> map_to_list data).

Definition showEvent (e : WeatherEvent) : string :=
  "{'" +:+ weather_id e +:+ "'," +:+ showName (weather_name e) +:+ ","
       +:+ (if active e then "true" else "false") +:+ ","
       +:+ pretty (duration e) +:+ "}".

Definition stringifyWeather (data : WeatherData) : string :=
  match weather data with
  | Some events => "[" +:+ String.concat "," (showEvent <$> events) +:+ "]"
  | None => "-"
  end +:+ showName (discord_invite data).

Definition item (id : string) (qty : Z) : StockItem :=
  {| item_id := Some id; display_name := None; quantity := qty |}.

(** The snapshot A(qty=3), B(qty=0), C(qty=5), spread over two categories. *)
Definition stockABC : StockData :=
  {[ "seed_stock" := [item "A" 3; item "B" 0]; "gear_stock" := [item "C" 5] ]}.

(** The same with A sold out as well. *)
Definition stockC : StockData :=
  {[ "seed_stock" := [item "A" 0; item "B" 0]; "gear_stock" := [item "C" 5] ]}.

(** A store in which [a@x.com] is verified and watches [{A, B}]. *)
Definition watchingAB : State :=
  set_subscriptions {[ "a@x.com" := {[ "A"; "B" ]} ]}
    (set_verifiedEmails
       {[ "a@x.com" := {| verified := true; verified_timestamp := 0 |} ]}
       initialState).

Definition event (id : string) (on : bool) : WeatherEvent :=
  {| weather_id := id; weather_name := Some id; active := on; duration := 180 |}.

Definition rain : WeatherData :=
  {| weather := Some [event "rain" true; event "frost" false];
     discord_invite := None |}.

(** [rain] again, with an unrelated field changed. *)
Definition rainInvite : WeatherData :=
  {| weather := Some [event "rain" true; event "frost" false];
     discord_invite := Some "https://discord.gg/garden" |}.

Definition frost : WeatherData :=
  {| weather := Some [event "rain" false; event "frost" true];
     discord_invite := None |}.

Definition calm : WeatherData :=
  {| weather := Some [event "rain" false; event "frost" false];
     discord_invite := None |}.

(** [watchingAB] after the weather poll has seen [data]. *)
Definition after (data : WeatherData) : State :=
  set_weather (stringifyWeather data) data watchingAB.

Definition minute : Z := 60 * 1000.
Definition hour : Z := 60 * minute.

(** A store with one pending verification issued at time [T]. *)
Definition pendingAt (T : Z) : State :=
  set_pendingVerifications
    {[ "a@x.com" := {| token := "c0ffee"; timestamp := T |} ]} initialState.

(** A visitor asks for a verification link, follows it and subscribes. *)
Definition session : list (Z * Event) :=
  [(1 * minute,
    PostRequestVerification (Some " a@x.com ") "c0ffee" (Delivered "250 OK"));
   (2 * minute, GetVerify (Some "a@x.com") (Some "c0ffee"));
   (3 * minute, PostSubscribe (Some "a@x.com") (ItemsArray ["A"; "B"]))].

Definition subscribed : State :=
  serve trim stringifyStock stringifyWeather 0 0 session (4 * minute)
    initialState.

(** What the catalogue endpoint answers: one usable entry, one without
    identifier, one with an empty identifier. *)
Definition catalogue : list RawItemInfo :=
  [{| raw_item_id := Some "A"; raw_icon := Some "https://cdn.example/a.png" |};
   {| raw_item_id := None; raw_icon := Some "https://cdn.example/x.png" |};
   {| raw_item_id := Some ""; raw_icon := None |}].

(** The visitor of [session], followed by a stock and a weather poll. *)
Definition polledSession : list (Z * Event) :=
  session ++
  [(4 * minute, PollStock (FetchOk stockABC) (FetchOk catalogue));
   (5 * minute, PollWeather (FetchOk rain))].

Definition polled : State :=
  serve trim stringifyStock stringifyWeather 0 0 polledSession (6 * minute)
    initialState.

(** A store with two pending verifications, issued at [0] and at [T]. *)
Definition twoPending (T : Z) : State :=
  set_pendingVerifications
    {[ "a@x.com" := {| token := "c0ffee"; timestamp := 0 |};
       "b@x.com" := {| token := "beef"; timestamp := T |} ]} initialState.

(** A push message in which one entry of a watched category has lost its
    identifier. *)
Definition stockUnidentified : StockData :=
  {[ "seed_stock" := [item "A" 3;
                      {| item_id := None; display_name := Some "?";
                         quantity := 7 |}] ]}.

End Example.

(** * Properties *)

(** ** Composer *)

Lemma foldl_push_elem (keep : list StockItem → list StockItem)
    (data : StockData) (categories : list string)
    (acc : list StockItem) (item : StockItem) :
  item ∈ foldl (λ acc category,
                  match data !! category with
                  | Some items => acc ++ keep items
                  | None => acc
                  end) acc categories
  ↔ item ∈ acc ∨
    ∃ category items,
      category ∈ categories ∧ data !! category = Some items ∧
      item ∈ keep items.
Proof.
  revert acc. induction categories as [|c cs IH]; intros acc; simpl.
  - split; [by left|]. intros [?|(c & ? & Hc & _)]; [done|]. by inversion Hc.
  - rewrite IH. split.
    + intros [Hacc|(c' & items & Hc' & Hd & Hi)].
      * destruct (data !! c) as [items|] eqn:Hd.
        -- apply elem_of_app in Hacc as [?|?]; [by left|].
           right. exists c, items. split_and!; [left|done..].
        -- by left.
      * right. exists c', items. split_and!; [by right|done..].
    + intros [Hacc|(c' & items & Hc' & Hd & Hi)].
      * left. destruct (data !! c); [apply elem_of_app|]; auto.
      * apply elem_of_cons in Hc' as [->|Hc'].
        -- left. rewrite Hd. apply elem_of_app. by right.
        -- right. by exists c', items.
Qed.

Lemma allStockItems_elem (data : StockData) (item : StockItem) :
  item ∈ allStockItems data
  ↔ ∃ category items,
      category ∈ stockCategories ∧ data !! category = Some items ∧ item ∈ items.
Proof.
  unfold allStockItems. rewrite (foldl_push_elem (λ items, items)).
  split; [|by right]. intros [H|H]; [by inversion H|done].
Qed.

Lemma selected_spec (watch : gset string) (item : StockItem) :
  selected watch item = true
  ↔ (∃ i, item_id item = Some i ∧ i ∈ watch) ∧ 0 < quantity item.
Proof.
  unfold selected. rewrite andb_true_iff, bool_decide_eq_true.
  destruct (item_id item) as [i|].
  - rewrite bool_decide_eq_true. split.
    + intros [? ?]. split; [by exists i|done].
    + intros [(j & [= <-] & ?) ?]. done.
  - split; [by intros [? _]|]. by intros [(? & ? & _) _].
Qed.

(** C1. For a subscriber with watch set [watch], the composer keeps exactly
    the entries of the snapshot, over all stock categories together, whose
    identifier is in [watch] and whose quantity is positive; the message
    lists one row per kept entry, and there is no message ([null]) when
    nothing is kept. *)
Theorem buildStockHtmlEmail_selects_watched_in_stock
    (st : State) (data : StockData) (email : string) (watch : gset string) :
  subscriptions st !! email = Some watch →
  let chosen := inStockItems watch data in
  (∀ item, item ∈ chosen ↔
     (∃ category items, category ∈ stockCategories ∧
        data !! category = Some items ∧ item ∈ items) ∧
     (∃ i, item_id item = Some i ∧ i ∈ watch) ∧
     0 < quantity item) ∧
  (chosen = [] → buildStockHtmlEmail st data email = None) ∧
  (chosen ≠ [] →
     buildStockHtmlEmail st data email
     = Some (StockBody (stockRow (itemInfo st) <$> chosen) email)).
Proof.
  intros Hsub chosen. split_and!.
  - intros item. subst chosen. unfold inStockItems.
    rewrite list_elem_of_In, filter_In, <- list_elem_of_In.
    by rewrite allStockItems_elem, selected_spec.
  - intros Hnil. unfold buildStockHtmlEmail. rewrite Hsub. simpl.
    fold chosen. by rewrite Hnil.
  - intros Hne. unfold buildStockHtmlEmail. rewrite Hsub. simpl.
    fold chosen. destruct chosen; [done|]. rewrite bool_decide_eq_true_2; [done|].
    simpl. lia.
Qed.

Lemma buildStockHtmlEmail_selects_witness :
  inStockItems {[ "A"; "B" ]} Example.stockABC = [Example.item "A" 3] ∧
  buildStockHtmlEmail Example.watchingAB Example.stockABC "a@x.com"
  = Some (StockBody
            [{| row_name := "A";
                row_icon := "https://image.joshlei.com/A.png";
                row_qty := 3 |}] "a@x.com") ∧
  buildStockHtmlEmail Example.watchingAB Example.stockC "a@x.com" = None.
Proof.
  assert (Hsub : subscriptions Example.watchingAB !! "a@x.com"
                 = Some ({[ "A"; "B" ]} : gset string)) by (vm_compute; reflexivity).
  assert (Hchosen : inStockItems {[ "A"; "B" ]} Example.stockABC
                    = [Example.item "A" 3]) by (vm_compute; reflexivity).
  split_and!; [exact Hchosen| |].
  - destruct (buildStockHtmlEmail_selects_watched_in_stock
                Example.watchingAB Example.stockABC "a@x.com" _ Hsub)
      as (_ & _ & Hmsg).
    rewrite Hmsg; [by rewrite Hchosen|]. by rewrite Hchosen.
  - destruct (buildStockHtmlEmail_selects_watched_in_stock
                Example.watchingAB Example.stockC "a@x.com" _ Hsub)
      as (_ & Hnone & _).
    apply Hnone. by vm_compute.
Defined.

(** ** Change detector *)

Section ChangeDetector.

Variable stringifyStock : StockData → string.

Lemma hasDataChanged_false (old : option string) (new : string) :
  hasDataChanged old new = false ↔ old = Some new.
Proof.
  unfold hasDataChanged. rewrite bool_decide_eq_false.
  split; [apply dec_stable | by intros ? ?].
Qed.

Lemma hasDataChanged_true (old : option string) (new : string) :
  hasDataChanged old new = true ↔ old ≠ Some new.
Proof. unfold hasDataChanged. by rewrite bool_decide_eq_true. Qed.

Lemma fetchItemInfo_latestStock (resp : FetchResult (list RawItemInfo)) (st : State) :
  latestStockDataJSON (fetchItemInfo resp st).1 = latestStockDataJSON st ∧
  latestStockDataObj (fetchItemInfo resp st).1 = latestStockDataObj st.
Proof. by destruct resp. Qed.

(** Whatever the store was, a successful poll leaves the serialized form of
    the payload it fetched in [latestStockDataJSON]. *)
Lemma pollStockAPI_records (st : State) (P : StockData)
    (info : FetchResult (list RawItemInfo)) :
  latestStockDataJSON (pollStockAPI stringifyStock (FetchOk P) info st).1
  = Some (stringifyStock P).
Proof.
  unfold pollStockAPI.
  destruct (hasDataChanged _ _) eqn:Hch.
  - destruct (bool_decide _).
    + destruct (fetchItemInfo info _) as [st2 fetched] eqn:Hf. simpl.
      change st2 with (st2, fetched).1. rewrite <- Hf.
      by rewrite (proj1 (fetchItemInfo_latestStock _ _)).
    + done.
  - by apply hasDataChanged_false in Hch.
Qed.

(** C3. The change detector answers [false] exactly when the two serialized
    payloads are equal and [true] whenever they differ; accordingly, the
    stock poller that has seen [P1] treats [P2] as unchanged exactly when
    the serialized forms coincide, and records [P2] otherwise. *)
Theorem hasDataChanged_iff_serialized_forms_differ
    (P1 P2 : StockData) (st : State)
    (info1 info2 : FetchResult (list RawItemInfo)) :
  let s1 := stringifyStock P1 in
  let s2 := stringifyStock P2 in
  let st1 := (pollStockAPI stringifyStock (FetchOk P1) info1 st).1 in
  let second := pollStockAPI stringifyStock (FetchOk P2) info2 st1 in
  (hasDataChanged (Some s1) s2 = false ↔ s1 = s2) ∧
  (hasDataChanged (Some s1) s2 = true ↔ s1 ≠ s2) ∧
  (s1 = s2 → second = (st1, [Log LogStockUnchanged])) ∧
  (s1 ≠ s2 →
     head second.2 = Some (Log LogStockChanged) ∧
     latestStockDataJSON second.1 = Some s2 ∧
     latestStockDataObj second.1 = Some P2).
Proof.
  intros s1 s2 st1 second.
  assert (Hrec : latestStockDataJSON st1 = Some s1) by apply pollStockAPI_records.
  split_and!.
  - rewrite hasDataChanged_false. split; [by intros [= ->]|by intros ->].
  - rewrite hasDataChanged_true. split; [by intros ? ->|by intros ? [= ?]].
  - intros Heq. subst second. unfold pollStockAPI. rewrite Hrec.
    fold s2. rewrite <- Heq.
    by rewrite (proj2 (hasDataChanged_false (Some s1) s1) eq_refl).
  - intros Hne. split; [|split; [apply pollStockAPI_records|]].
    + subst second. unfold pollStockAPI. rewrite Hrec. fold s2.
      rewrite (proj2 (hasDataChanged_true (Some s1) s2)) by (by intros [= ?]).
      destruct (bool_decide _); [destruct (fetchItemInfo _ _)|]; done.
    + subst second. unfold pollStockAPI. rewrite Hrec. fold s2.
      rewrite (proj2 (hasDataChanged_true (Some s1) s2)) by (by intros [= ?]).
      destruct (bool_decide _).
      * destruct (fetchItemInfo info2 _) as [st2 fetched] eqn:Hf. simpl.
        change st2 with (st2, fetched).1. rewrite <- Hf.
        by rewrite (proj2 (fetchItemInfo_latestStock _ _)).
      * done.
Qed.

End ChangeDetector.

Lemma hasDataChanged_witness :
  hasDataChanged (Some (Example.stringifyStock Example.stockABC))
    (Example.stringifyStock Example.stockABC) = false ∧
  hasDataChanged (Some (Example.stringifyStock Example.stockABC))
    (Example.stringifyStock ∅) = true.
Proof.
  destruct (hasDataChanged_iff_serialized_forms_differ Example.stringifyStock
              Example.stockABC Example.stockABC initialState
              (FetchError "") (FetchError "")) as (Hsame & _).
  destruct (hasDataChanged_iff_serialized_forms_differ Example.stringifyStock
              Example.stockABC ∅ initialState
              (FetchError "") (FetchError "")) as (_ & Hdiff & _).
  split; [by apply Hsame|]. apply Hdiff. by vm_compute.
Defined.

(** ** Weather notifications *)

(** In a list of bindings with distinct keys, a key occurs once or not at
    all. *)
Lemma count_key {A} (l : list (string * A)) (email : string) :
  NoDup l.*1 →
  length (List.filter (λ kv, bool_decide (kv.1 = email)) l)
  = if bool_decide (email ∈ l.*1) then 1%nat else 0%nat.
Proof.
  induction l as [|[k v] l IH]; intros Hnd; [done|].
  rewrite fmap_cons in Hnd. apply NoDup_cons in Hnd as [Hk Hnd].
  specialize (IH Hnd). rewrite fmap_cons. cbn [List.filter fst].
  destruct (decide (k = email)) as [->|Hne].
  - rewrite bool_decide_eq_true_2 by done. cbn [length]. rewrite IH.
    rewrite (bool_decide_eq_false_2 (email ∈ l.*1)) by done.
    by rewrite bool_decide_eq_true_2 by left.
  - rewrite (bool_decide_eq_false_2 (k = email)) by done. rewrite IH.
    simpl. rewrite (bool_decide_ext (email ∈ k :: l.*1) (email ∈ l.*1)); [done|].
    rewrite elem_of_cons. split; [|by right]. by intros [->|?].
Qed.

Lemma filter_fmap_length {A B} (f : A → B) (p : B → bool) (l : list A) :
  length (List.filter p (f <$> l)) = length (List.filter (λ x, p (f x)) l).
Proof.
  induction l as [|x l IH]; [done|]. rewrite fmap_cons. cbn [List.filter].
  destruct (p (f x)); cbn [length]; by rewrite IH.
Qed.

Lemma elem_of_keys {A} (m : gmap string A) (email : string) :
  email ∈ (map_to_list m).*1 ↔ is_Some (m !! email).
Proof.
  rewrite list_elem_of_fmap. split.
  - intros ([k v] & -> & Hin). apply elem_of_map_to_list in Hin. by exists v.
  - intros [v Hv]. exists (email, v). split; [done|]. by apply elem_of_map_to_list.
Qed.

Lemma mailsOf_weatherFanout (st : State) (data : WeatherData) (a : WeatherEvent) :
  mailsOf (weatherFanout st data a)
  = (λ kv : string * gset string,
       {| mail_to := kv.1;
          mail_subject := SubjWeatherEvent (eventTitle a);
          mail_html := buildWeatherHtmlEmail a (discord_invite data) kv.1 |})
    <$> map_to_list (subscriptions st).
Proof.
  unfold weatherFanout, mailsOf.
  induction (map_to_list (subscriptions st)) as [|kv l IH]; [done|].
  by rewrite bind_cons, omap_app, fmap_cons, IH.
Qed.

(** The weather fan-out hands the relay one mail per subscriber and none to
    anybody else. *)
Lemma weatherFanout_once (st : State) (data : WeatherData) (a : WeatherEvent)
    (email : string) :
  mailsTo email (mailsOf (weatherFanout st data a))
  = if bool_decide (is_Some (subscriptions st !! email)) then 1%nat else 0%nat.
Proof.
  rewrite mailsOf_weatherFanout. unfold mailsTo.
  rewrite filter_fmap_length. cbn [mail_to].
  rewrite count_key by apply NoDup_fst_map_to_list.
  by rewrite (bool_decide_ext _ _ (elem_of_keys (subscriptions st) email)).
Qed.

Lemma weatherFanout_weather_mails (st : State) (data : WeatherData)
    (a : WeatherEvent) (m : Mail) :
  m ∈ mailsOf (weatherFanout st data a) →
  isWeatherMail m = true ∧ is_Some (subscriptions st !! mail_to m).
Proof.
  rewrite mailsOf_weatherFanout, list_elem_of_fmap.
  intros ([k v] & -> & Hin). split; [done|].
  apply elem_of_map_to_list in Hin. by exists v.
Qed.

Section Weather.

Variable stringifyWeather : WeatherData → string.

Lemma pollWeatherAPI_unchanged (st : State) (new : WeatherData) :
  latestWeatherDataJSON st = Some (stringifyWeather new) →
  pollWeatherAPI stringifyWeather (FetchOk new) st
  = (st, [Log LogWeatherUnchanged]).
Proof.
  intros H. unfold pollWeatherAPI.
  by rewrite (proj2 (hasDataChanged_false _ _) H).
Qed.

(** C2. Let [prev] be the weather snapshot the store holds (none before the
    first one) and [new] the next one.  If both have the same active
    [weather_id], polling [new] sends nothing.  If [new] has an active event
    whose identifier is not the previously active one (another event was
    active, or none), exactly one weather mail goes to every current
    subscriber and to nobody else.  If [new] has no active event nothing is
    sent, and the end of the previous event is only logged. *)
Theorem pollWeatherAPI_notifies_new_active_event_only
    (st : State) (prev : option WeatherData) (new : WeatherData) :
  lastWeather stringifyWeather st prev →
  let changed := stringifyWeather <$> prev ≠ Some (stringifyWeather new) in
  let effects := (pollWeatherAPI stringifyWeather (FetchOk new) st).2 in
  (∀ x, activeId prev = Some x → activeId (Some new) = Some x →
        mailsOf effects = []) ∧
  (∀ y, activeId (Some new) = Some y → activeId prev ≠ Some y → changed →
        (∀ m, m ∈ mailsOf effects → isWeatherMail m = true) ∧
        ∀ email, mailsTo email (mailsOf effects)
                 = if bool_decide (is_Some (subscriptions st !! email))
                   then 1%nat else 0%nat) ∧
  (activeId (Some new) = None →
     mailsOf effects = [] ∧
     ∀ p, prev ≫= activeEventOf = Some p → changed →
          effects = [Log LogWeatherChanged; Log (LogWeatherEnded (weather_name p))]).
Proof.
  intros [Hobj Hjson] changed effects. subst effects. unfold pollWeatherAPI.
  rewrite Hobj, Hjson. unfold activeId. simpl.
  destruct (hasDataChanged _ _) eqn:Hch.
  2:{ apply hasDataChanged_false in Hch. by split_and!. }
  simpl. split_and!.
  - intros x Hp Hn.
    destruct (activeEventOf new) as [a|]; [|done].
    destruct (prev ≫= activeEventOf) as [p|]; [|done].
    simpl in *. injection Hp as Hp. injection Hn as Hn.
    rewrite bool_decide_eq_false_2; [done|]. intros Hne. congruence.
  - intros y Hn Hp _.
    destruct (activeEventOf new) as [a|]; [|done]. injection Hn as Hn.
    assert (Hfan : ∀ effects,
               effects = Log LogWeatherChanged :: Log (LogNewWeather (weather_name a))
                           :: weatherFanout st new a →
               (∀ m, m ∈ mailsOf effects → isWeatherMail m = true) ∧
               ∀ email, mailsTo email (mailsOf effects)
                        = if bool_decide (is_Some (subscriptions st !! email))
                          then 1%nat else 0%nat).
    { intros ? ->. split.
      - intros m Hm. by apply (weatherFanout_weather_mails st new a).
      - intros email. apply weatherFanout_once. }
    destruct (prev ≫= activeEventOf) as [p|]; [|exact (Hfan _ eq_refl)].
    simpl in Hp. rewrite bool_decide_eq_true_2; [exact (Hfan _ eq_refl)|].
    intros Heq. apply Hp. congruence.
  - intros Hn. destruct (activeEventOf new) as [a|]; [done|].
    destruct (prev ≫= activeEventOf) as [p|]; (split; [done|]).
    + by intros ? [= <-] _.
    + done.
Qed.

End Weather.

Lemma pollWeatherAPI_notifies_witness :
  let poll data :=
    mailsOf (pollWeatherAPI Example.stringifyWeather (FetchOk data)
               (Example.after Example.rain)).2 in
  poll Example.rainInvite = [] ∧
  mailsTo "a@x.com" (poll Example.frost) = 1%nat ∧
  mailsTo "b@x.com" (poll Example.frost) = 0%nat ∧
  poll Example.calm = [].
Proof.
  assert (Hlast : lastWeather Example.stringifyWeather
                    (Example.after Example.rain) (Some Example.rain))
    by (split; reflexivity).
  intros poll. subst poll. split_and!.
  - destruct (pollWeatherAPI_notifies_new_active_event_only
                Example.stringifyWeather _ _ Example.rainInvite Hlast)
      as (Hsame & _).
    by apply (Hsame "rain").
  - destruct (pollWeatherAPI_notifies_new_active_event_only
                Example.stringifyWeather _ _ Example.frost Hlast)
      as (_ & Hnew & _).
    destruct (Hnew "frost") as [_ Hcount]; [done|by vm_compute|by vm_compute|].
    by rewrite Hcount.
  - destruct (pollWeatherAPI_notifies_new_active_event_only
                Example.stringifyWeather _ _ Example.frost Hlast)
      as (_ & Hnew & _).
    destruct (Hnew "frost") as [_ Hcount]; [done|by vm_compute|by vm_compute|].
    by rewrite Hcount.
  - destruct (pollWeatherAPI_notifies_new_active_event_only
                Example.stringifyWeather _ _ Example.calm Hlast)
      as (_ & _ & Hend).
    by apply Hend.
Defined.

(** *** The store always holds a snapshot together with its serialized form *)

Ltac handler_cases :=
  unfold step, pollStockAPI, pollWeatherAPI, checkVerification,
    requestVerification, sendVerificationEmail, verify, subscribe, unsub,
    refreshItems, testEmail, fetchItemInfo, sweep;
  repeat (case_match; simpl in *; simplify_eq); auto.

Ltac decide_hyps :=
  repeat match goal with
    | H : bool_decide _ = true |- _ => apply bool_decide_eq_true in H
    | H : bool_decide _ = false |- _ => apply bool_decide_eq_false in H
    end.

Section WeatherStore.

Variable trim : string → string.
Variable stringifyStock : StockData → string.
Variable stringifyWeather : WeatherData → string.

(** Only the weather poller writes the last weather snapshot. *)
Lemma step_keeps_weather (now : Z) (ev : Event) (st : State) :
  (∀ resp, ev ≠ PollWeather resp) →
  latestWeatherDataObj (step trim stringifyStock stringifyWeather now ev st).1.1
  = latestWeatherDataObj st ∧
  latestWeatherDataJSON (step trim stringifyStock stringifyWeather now ev st).1.1
  = latestWeatherDataJSON st.
Proof.
  intros Hev. destruct ev as [| resp | | | | | | | |];
    [|by destruct (Hev resp)|..]; handler_cases.
Qed.

Lemma sweep_keeps_weather (now : Z) (st : State) :
  latestWeatherDataObj (sweep now st).1 = latestWeatherDataObj st ∧
  latestWeatherDataJSON (sweep now st).1 = latestWeatherDataJSON st.
Proof. done. Qed.

Lemma pollWeatherAPI_lastWeather (resp : FetchResult WeatherData) (st : State)
    (prev : option WeatherData) :
  lastWeather stringifyWeather st prev →
  ∃ prev', lastWeather stringifyWeather
             (pollWeatherAPI stringifyWeather resp st).1 prev'.
Proof.
  intros Hl. unfold pollWeatherAPI. destruct resp as [data|msg]; [|by exists prev].
  destruct (hasDataChanged _ _); [|by exists prev]. by exists (Some data).
Qed.

Lemma reachable_lastWeather (st : State) :
  reachable trim stringifyStock stringifyWeather st →
  ∃ prev, lastWeather stringifyWeather st prev.
Proof.
  induction 1 as [|now ev st _ [prev [Hobj Hjson]]|now st _ [prev Hl]].
  - by exists None.
  - assert (Hev : (∃ resp, ev = PollWeather resp) ∨ ∀ resp, ev ≠ PollWeather resp)
      by (destruct ev; eauto).
    destruct Hev as [[resp ->]|Hev].
    + by apply (pollWeatherAPI_lastWeather resp st prev).
    + destruct (step_keeps_weather now ev st Hev) as [Hobj' Hjson'].
      exists prev. split; congruence.
  - by exists prev.
Qed.

(** With a serialization that tells snapshots apart, the snapshot held
    after a successful poll is the one that was fetched. *)
Lemma pollWeatherAPI_holds_fetched (st : State) (prev : option WeatherData)
    (old : WeatherData) :
  (∀ a b, stringifyWeather a = stringifyWeather b → a = b) →
  lastWeather stringifyWeather st prev →
  lastWeather stringifyWeather
    (pollWeatherAPI stringifyWeather (FetchOk old) st).1 (Some old).
Proof.
  intros Hinj [Hobj Hjson]. unfold pollWeatherAPI.
  destruct (hasDataChanged _ _) eqn:Hch; [done|].
  apply hasDataChanged_false in Hch. rewrite Hjson in Hch.
  destruct prev as [p|]; [|done]. injection Hch as Hch.
  apply Hinj in Hch as ->. by split.
Qed.

End WeatherStore.

(** ** Subscription store *)

Section Store.

Variable trim : string → string.
Variable stringifyStock : StockData → string.
Variable stringifyWeather : WeatherData → string.

Lemma step_keeps_subscribers_verified (now : Z) (ev : Event) (st : State) :
  (∀ email, is_Some (subscriptions st !! email) →
            is_Some (verifiedEmails st !! email)) →
  ∀ email,
    is_Some (subscriptions
               (step trim stringifyStock stringifyWeather now ev st).1.1 !! email) →
    is_Some (verifiedEmails
               (step trim stringifyStock stringifyWeather now ev st).1.1 !! email).
Proof.
  intros Hinv e. specialize (Hinv e).
  destruct ev; handler_cases; decide_hyps;
    rewrite ?lookup_insert_is_Some, ?lookup_delete_is_Some;
    try tauto.
  - intros ?. destruct (decide (s = e)); auto.
  - intros [<-|[_ ?]]; auto.
Qed.

(** C4. In every state the verification-enforcing server can reach, each
    e-mail holding a subscription is a key of [verifiedEmails]. *)
Theorem subscribers_are_verified (st : State) :
  reachable trim stringifyStock stringifyWeather st →
  ∀ email, is_Some (subscriptions st !! email) →
           is_Some (verifiedEmails st !! email).
Proof.
  induction 1 as [|now ev st _ IH|now st _ IH].
  - intros email. simpl. rewrite lookup_empty. by intros [? ?].
  - by apply step_keeps_subscribers_verified.
  - done.
Qed.

Lemma elapse_reachable (start t0 t1 : Z) (st : State) :
  reachable trim stringifyStock stringifyWeather st →
  reachable trim stringifyStock stringifyWeather (elapse start t0 t1 st).
Proof.
  unfold elapse. generalize (sweepsBetween start t0 t1) as times.
  intros times. revert st.
  induction times as [|t times IH]; intros st Hst; [done|].
  simpl. apply IH. by apply reachable_sweep.
Qed.

(** Timed runs stay within the reachable states. *)
Lemma serve_reachable (start clock : Z) (evs : list (Z * Event)) (until : Z)
    (st : State) :
  reachable trim stringifyStock stringifyWeather st →
  reachable trim stringifyStock stringifyWeather
    (serve trim stringifyStock stringifyWeather start clock evs until st).
Proof.
  revert clock st. induction evs as [|[t ev] evs IH]; intros clock st Hst.
  - by apply elapse_reachable.
  - simpl. apply IH. by apply reachable_step, elapse_reachable.
Qed.

End Store.

Lemma subscribers_are_verified_witness :
  subscriptions Example.subscribed !! "a@x.com" = Some {[ "A"; "B" ]} ∧
  is_Some (verifiedEmails Example.subscribed !! "a@x.com").
Proof.
  assert (Hsub : subscriptions Example.subscribed !! "a@x.com"
                 = Some ({[ "A"; "B" ]} : gset string)) by (vm_compute; reflexivity).
  split; [exact Hsub|].
  apply (subscribers_are_verified Example.trim Example.stringifyStock
           Example.stringifyWeather Example.subscribed).
  - apply serve_reachable, reachable_initial.
  - rewrite Hsub. by eexists.
Defined.

(** ** Verification *)

Lemma truthy_Some (a : option string) (s : string) :
  truthy a = Some s ↔ a = Some s ∧ s ≠ "".
Proof.
  destruct a as [s'|]; simpl; [|by split; [|intros [? _]]].
  destruct (String.eqb_spec s' ""); split.
  - done.
  - intros [[= ->] ?]. done.
  - by intros [= ->].
  - by intros [[= ->] _].
Qed.

Lemma verify_success (st : State) (email queryToken : option string) (now : Z) :
  verifySucceeded (verify email queryToken now st).2 = true →
  ∃ e v,
    email = Some e ∧ pendingVerifications st !! e = Some v ∧
    queryToken = Some (token v) ∧
    (verify email queryToken now st).1.1
    = set_verifiedEmails
        (<[e := {| verified := true; verified_timestamp := now |}]>
           (verifiedEmails st))
        (set_pendingVerifications (delete e (pendingVerifications st)) st).
Proof.
  unfold verify.
  destruct (truthy email) as [e|] eqn:He; [|done].
  destruct (truthy queryToken) as [t|] eqn:Ht; [|done].
  destruct (pendingVerifications st !! e) as [v|] eqn:Hv; [|done].
  destruct (String.eqb_spec (token v) t) as [Heq|]; [subst t|done].
  intros _. exists e, v. apply truthy_Some in He as [-> _].
  apply truthy_Some in Ht as [-> _]. done.
Qed.

Lemma verify_failure (st : State) (email queryToken : option string) (now : Z) :
  verifySucceeded (verify email queryToken now st).2 = false →
  (verify email queryToken now st).1.1 = st.
Proof. unfold verify. by repeat case_match. Qed.

(** C5. A [GET /verify] succeeds only if a pending entry exists for the
    e-mail and holds exactly the presented token; it then clears the entry
    and marks the e-mail verified, so that presenting the same pair again
    fails; a failed verification leaves the store as it was. *)
Theorem verify_token_is_single_use
    (st : State) (email queryToken : option string) (now now' : Z) :
  let first := verify email queryToken now st in
  let second := verify email queryToken now' first.1.1 in
  (verifySucceeded first.2 = true →
     (∃ e v, email = Some e ∧ pendingVerifications st !! e = Some v ∧
             queryToken = Some (token v) ∧
             pendingVerifications first.1.1 !! e = None ∧
             is_Some (verifiedEmails first.1.1 !! e)) ∧
     verifySucceeded second.2 = false ∧
     second.1.1 = first.1.1) ∧
  (verifySucceeded first.2 = false → first.1.1 = st).
Proof.
  intros first second. split; [|apply verify_failure].
  intros Hok. destruct (verify_success _ _ _ _ Hok) as (e & v & -> & Hv & -> & Hst).
  fold first in Hst.
  assert (Hgone : pendingVerifications first.1.1 !! e = None)
    by (rewrite Hst; apply lookup_delete_eq).
  assert (Hfail : verifySucceeded second.2 = false).
  { subst second. unfold verify at 1.
    destruct (truthy (Some e)) as [e'|] eqn:He; [|done].
    apply truthy_Some in He as [[= <-] _].
    destruct (truthy (Some (token v))); [|done]. by rewrite Hgone. }
  split_and!.
  - exists e, v. split_and!; try done.
    rewrite Hst. simpl. rewrite lookup_insert_eq. by eexists.
  - done.
  - by apply verify_failure.
Qed.

Lemma verify_token_is_single_use_witness :
  let first :=
    verify (Some "a@x.com") (Some "c0ffee") Example.hour (Example.pendingAt 0) in
  first.2 = RedirectVerified "a@x.com" ∧
  (verify (Some "a@x.com") (Some "c0ffee") (2 * Example.hour) first.1.1).2
  = Send 400 "Invalid or expired verification link.".
Proof.
  intros first.
  destruct (verify_token_is_single_use (Example.pendingAt 0) (Some "a@x.com")
              (Some "c0ffee") Example.hour (2 * Example.hour))
    as [Hok _].
  destruct Hok as (_ & Hfail & _); [by vm_compute|].
  split; [by vm_compute|].
  fold first in Hfail. revert Hfail.
  destruct (verify _ _ _ first.1.1) as [[st' eff] r] eqn:Hv.
  unfold verify in Hv. by repeat case_match; simplify_eq.
Defined.

(** ** Subscribing and unsubscribing *)

Section Subscriptions.

Variable trim : string → string.

Lemma subscribe_accepted (st : State) (email : option string)
    (field : ItemsField) (e : string) :
  truthy (trim <$> email) = Some e →
  itemsOf field ≠ [] →
  is_Some (verifiedEmails st !! e) →
  subscribe trim email field st
  = (set_subscriptions
       (<[e := list_to_set (itemsOf field)]> (subscriptions st)) st,
     [Log (LogSubscribed e (length (itemsOf field)))],
     Json 200 true "Subscription successful!").
Proof.
  intros He Hitems Hver. unfold subscribe. rewrite He.
  rewrite bool_decide_eq_false_2 by (by destruct (itemsOf field)).
  by rewrite bool_decide_eq_true_2.
Qed.

(** C7. Two accepted [POST /subscribe] requests for the same e-mail, with
    non-empty item lists [S1] then [S2], leave the stored watch set equal to
    the set of [S2]: an identifier is watched afterwards exactly when it
    occurs in [S2]. *)
Theorem subscribe_replaces_watch_set
    (st : State) (email : option string) (S1 S2 : ItemsField) (e : string) :
  truthy (trim <$> email) = Some e →
  is_Some (verifiedEmails st !! e) →
  itemsOf S1 ≠ [] →
  itemsOf S2 ≠ [] →
  let st1 := (subscribe trim email S1 st).1.1 in
  let st2 := (subscribe trim email S2 st1).1.1 in
  subscriptions st1 !! e = Some (list_to_set (itemsOf S1)) ∧
  subscriptions st2 !! e = Some (list_to_set (itemsOf S2)) ∧
  (∀ watch, subscriptions st2 !! e = Some watch →
            ∀ i, i ∈ watch ↔ i ∈ itemsOf S2) ∧
  (∀ other, other ≠ e →
            subscriptions st2 !! other = subscriptions st !! other).
Proof.
  intros He Hver H1 H2 st1 st2.
  assert (Hst1 : st1 = set_subscriptions
                         (<[e := list_to_set (itemsOf S1)]> (subscriptions st)) st)
    by (subst st1; by rewrite (subscribe_accepted st email S1 e)).
  assert (Hst2 : st2 = set_subscriptions
                         (<[e := list_to_set (itemsOf S2)]> (subscriptions st1)) st1).
  { subst st2. rewrite (subscribe_accepted st1 email S2 e); try done.
    by rewrite Hst1. }
  split_and!.
  - rewrite Hst1. apply lookup_insert_eq.
  - rewrite Hst2. apply lookup_insert_eq.
  - intros watch. rewrite Hst2. simpl. rewrite lookup_insert_eq.
    intros [= <-] i. apply elem_of_list_to_set.
  - intros other Hne. rewrite Hst2, Hst1. simpl.
    by rewrite !lookup_insert_ne.
Qed.

Lemma unsub_blank (st : State) (email : option string) :
  truthy (trim <$> email) = None →
  unsub trim email st = (st, [Log LogUnsubNoEmail], Send 400 "Email is required.").
Proof. intros He. unfold unsub. by rewrite He. Qed.

(** C8. A [GET /unsub] for an e-mail without subscription answers that the
    e-mail was not found and returns the store untouched; for a subscribed
    e-mail it removes the subscription (of that e-mail only) and
    redirects. *)
Theorem unsub_reports_not_found_or_removes
    (st : State) (email : option string) (e : string) :
  truthy (trim <$> email) = Some e →
  (subscriptions st !! e = None →
     unsub trim email st
     = (st, [Log (LogUnsubNotFound e)], Send 200 "Email not found in subscriptions.")) ∧
  (is_Some (subscriptions st !! e) →
     (unsub trim email st).2 = RedirectUnsubscribed ∧
     subscriptions (unsub trim email st).1.1 !! e = None ∧
     ∀ other, other ≠ e →
       subscriptions (unsub trim email st).1.1 !! other = subscriptions st !! other).
Proof.
  intros He. unfold unsub. rewrite He. split.
  - intros Hnone. rewrite bool_decide_eq_false_2; [done|].
    rewrite Hnone. by intros [? ?].
  - intros Hsome. rewrite bool_decide_eq_true_2 by done. simpl.
    split_and!; [done|apply lookup_delete_eq|].
    intros other Hne. by apply lookup_delete_ne.
Qed.

(** ** Requesting a verification *)

(** C9. An accepted [POST /request-verification] stores the fresh token
    with the current time under the e-mail, replacing whatever entry was
    pending, and answers with success; neither the store nor the response
    depends on what the mail relay does, whose failure only shows as a log
    line. *)
Theorem requestVerification_succeeds_whatever_the_relay
    (st : State) (email : option string) (e newToken : string) (now : Z)
    (relay : RelayOutcome) :
  truthy (trim <$> email) = Some e →
  subscriptions st !! e = None →
  let issued := {| token := newToken; timestamp := now |} in
  let mailOptions :=
    {| mail_to := e; mail_subject := SubjVerify;
       mail_html := VerificationBody e newToken |} in
  let r := requestVerification trim email newToken now relay st in
  r.2 = Json 200 true "Verification email sent. Please check your inbox." ∧
  r.1.1 = set_pendingVerifications (<[e := issued]> (pendingVerifications st)) st ∧
  pendingVerifications r.1.1 !! e = Some issued ∧
  (∀ relay',
     (requestVerification trim email newToken now relay' st).1.1 = r.1.1 ∧
     (requestVerification trim email newToken now relay' st).2 = r.2) ∧
  r.1.2 = Log (LogRequestProcessing e) ::
          match relay with
          | SmtpVerifyError msg => [Log (LogSmtpError msg)]
          | SendMailError msg =>
              [Log LogSmtpVerified; SendMail mailOptions;
               Log (LogVerificationMailError e msg)]
          | Delivered response =>
              [Log LogSmtpVerified; SendMail mailOptions;
               Log (LogVerificationMailSent e response)]
          end.
Proof.
  intros He Hsub issued mailOptions r.
  assert (Hr : ∀ relay',
             requestVerification trim email newToken now relay' st
             = (set_pendingVerifications
                  (<[e := issued]> (pendingVerifications st)) st,
                Log (LogRequestProcessing e) :: verificationRelay mailOptions relay',
                Json 200 true "Verification email sent. Please check your inbox.")).
  { intros relay'. unfold requestVerification. rewrite He.
    rewrite bool_decide_eq_false_2; [done|]. rewrite Hsub. by intros [? ?]. }
  subst r. rewrite Hr. simpl. split_and!; try done.
  - apply lookup_insert_eq.
  - intros relay'. by rewrite Hr.
Qed.

End Subscriptions.

(** ** Expiry sweep *)

(** C10. A run of the sweep touches nothing but [pendingVerifications], and
    there it only removes entries: an entry aged 24 hours or less stays as
    it is, and an entry that disappears was strictly older than 24 hours. *)
Theorem sweep_only_drops_expired_pending (now : Z) (st : State) :
  let st' := (sweep now st).1 in
  (subscriptions st' = subscriptions st ∧
   verifiedEmails st' = verifiedEmails st ∧
   latestStockDataJSON st' = latestStockDataJSON st ∧
   latestStockDataObj st' = latestStockDataObj st ∧
   latestWeatherDataJSON st' = latestWeatherDataJSON st ∧
   latestWeatherDataObj st' = latestWeatherDataObj st ∧
   itemInfo st' = itemInfo st) ∧
  (∀ email v, pendingVerifications st !! email = Some v →
              now - timestamp v ≤ expirationTime →
              pendingVerifications st' !! email = Some v) ∧
  (∀ email v, pendingVerifications st !! email = Some v →
              pendingVerifications st' !! email = None →
              now - timestamp v > expirationTime) ∧
  (∀ email v, pendingVerifications st' !! email = Some v →
              pendingVerifications st !! email = Some v).
Proof.
  intros st'. subst st'. simpl. split_and!; try done.
  - intros email v Hv Hage. apply map_lookup_filter_Some. split; [done|].
    simpl. unfold expired. lia.
  - intros email v Hv Hgone.
    destruct (decide (expired now v)) as [Hexp|Hlive]; [done|].
    assert (Hin : filter (λ kv, ¬ expired now kv.2) (pendingVerifications st)
                  !! email = Some v) by (by apply map_lookup_filter_Some).
    congruence.
  - intros email v Hv. by apply map_lookup_filter_Some in Hv as [? _].
Qed.

Lemma sweep_only_drops_expired_pending_witness :
  pendingVerifications (sweep (24 * Example.hour) (Example.pendingAt 0)).1
    !! "a@x.com"
  = Some {| token := "c0ffee"; timestamp := 0 |} ∧
  subscriptions (sweep (24 * Example.hour) Example.watchingAB).1
  = subscriptions Example.watchingAB.
Proof.
  split.
  - destruct (sweep_only_drops_expired_pending (24 * Example.hour)
                (Example.pendingAt 0)) as (_ & Hkeep & _).
    apply Hkeep; by vm_compute.
  - by destruct (sweep_only_drops_expired_pending (24 * Example.hour)
                   Example.watchingAB) as ((Hsubs & _) & _).
Defined.

Lemma subscribe_replaces_watch_set_witness :
  let st1 := (subscribe Example.trim (Some " a@x.com ") (ItemsArray ["A"; "C"])
                Example.watchingAB).1.1 in
  subscriptions (subscribe Example.trim (Some " a@x.com ") (ItemsValue (Some "B"))
                   st1).1.1 !! "a@x.com"
  = Some {[ "B" ]}.
Proof.
  destruct (subscribe_replaces_watch_set Example.trim Example.watchingAB
              (Some " a@x.com ") (ItemsArray ["A"; "C"]) (ItemsValue (Some "B"))
              "a@x.com")
    as (_ & Hsecond & _).
  - by vm_compute.
  - vm_compute. by eexists.
  - done.
  - done.
  - simpl. rewrite Hsecond. by vm_compute.
Defined.

Lemma unsub_reports_not_found_or_removes_witness :
  unsub Example.trim (Some "b@x.com") Example.watchingAB
  = (Example.watchingAB, [Log (LogUnsubNotFound "b@x.com")],
     Send 200 "Email not found in subscriptions.") ∧
  subscriptions (unsub Example.trim (Some "a@x.com ") Example.watchingAB).1.1
    !! "a@x.com" = None.
Proof.
  split.
  - destruct (unsub_reports_not_found_or_removes Example.trim Example.watchingAB
                (Some "b@x.com") "b@x.com") as [Hnone _]; [by vm_compute|].
    apply Hnone. by vm_compute.
  - destruct (unsub_reports_not_found_or_removes Example.trim Example.watchingAB
                (Some "a@x.com ") "a@x.com") as [_ Hsome]; [by vm_compute|].
    destruct Hsome as (_ & Hgone & _); [|done].
    vm_compute. by eexists.
Defined.

Lemma requestVerification_succeeds_witness :
  let r := requestVerification Example.trim (Some "a@x.com") "beef"
             Example.hour (SmtpVerifyError "ECONNREFUSED") (Example.pendingAt 0) in
  r.2 = Json 200 true "Verification email sent. Please check your inbox." ∧
  pendingVerifications r.1.1 !! "a@x.com"
  = Some {| token := "beef"; timestamp := Example.hour |} ∧
  mailsOf r.1.2 = [].
Proof.
  destruct (requestVerification_succeeds_whatever_the_relay Example.trim
              (Example.pendingAt 0) (Some "a@x.com") "a@x.com" "beef"
              Example.hour (SmtpVerifyError "ECONNREFUSED"))
    as (Hresp & _ & Hpending & _ & Heffects); [by vm_compute|by vm_compute|].
  intros r. split_and!; [done|done|]. subst r. by rewrite Heffects.
Defined.

(** ** Lifetime of a pending verification *)

Lemma sweep_lookup (now : Z) (st : State) (e : string) :
  pendingVerifications (sweep now st).1 !! e
  = pendingVerifications st !! e ≫= λ v,
      if decide (expired now v) then None else Some v.
Proof.
  simpl. rewrite map_lookup_filter.
  destruct (pendingVerifications st !! e) as [v|]; [|done]. simpl.
  destruct (decide (expired now v)).
  - by rewrite option_guard_False by (simpl; tauto).
  - by rewrite option_guard_True.
Qed.

(** After a series of sweeps an entry is still there exactly when none of
    them found it older than 24 hours. *)
Lemma sweeps_lookup (times : list Z) (st : State) (e : string) :
  pendingVerifications (foldl (λ s t, (sweep t s).1) st times) !! e
  = pendingVerifications st !! e ≫= λ v,
      if decide (Exists (λ t, expired t v) times) then None else Some v.
Proof.
  revert st. induction times as [|t times IH]; intros st.
  - cbn [foldl]. destruct (pendingVerifications st !! e) as [v|]; [|done].
    cbn [mbind option_bind].
    destruct (decide (Exists _ [])) as [H%Exists_nil|]; done.
  - cbn [foldl]. rewrite IH, sweep_lookup.
    destruct (pendingVerifications st !! e) as [v|]; [|done]. simpl.
    destruct (decide (expired t v)) as [Ht|Ht]; simpl.
    + rewrite decide_True; [done|]. by left.
    + destruct (decide (Exists _ times)) as [Hts|Hts].
      * rewrite decide_True; [done|]. by right.
      * rewrite decide_False; [done|]. by intros [?|?]%Exists_cons.
Qed.

Lemma sweepsBetween_elem (start t0 t1 s : Z) :
  s ∈ sweepsBetween start t0 t1
  ↔ ∃ k, s = start + k * sweepInterval ∧
         Z.max 0 ((t0 - start) `div` sweepInterval) < k
         ≤ (t1 - start) `div` sweepInterval.
Proof.
  unfold sweepsBetween. rewrite list_elem_of_fmap.
  generalize ((t0 - start) `div` sweepInterval) as q0.
  generalize ((t1 - start) `div` sweepInterval) as q1.
  generalize sweepInterval as h. intros h q1 q0. split.
  - intros (i & -> & Hi). apply elem_of_seq in Hi. eexists. split; [done|]. lia.
  - intros (k & -> & Hk). exists (Z.to_nat (k - Z.max 0 q0 - 1)).
    split; [|apply elem_of_seq; lia].
    by replace (Z.max 0 q0 + 1 + Z.of_nat (Z.to_nat (k - Z.max 0 q0 - 1)))
      with k by lia.
Qed.

(** The timer fires strictly after [t0] and not after [t1]. *)
Lemma sweepsBetween_bounds (start t0 t1 s : Z) :
  start ≤ t0 → s ∈ sweepsBetween start t0 t1 → t0 < s ≤ t1.
Proof.
  intros Hstart (k & -> & Hk)%sweepsBetween_elem.
  pose proof (Z.div_mod (t0 - start) sweepInterval ltac:(done)) as H0.
  pose proof (Z.mod_pos_bound (t0 - start) sweepInterval ltac:(done)) as H0'.
  pose proof (Z.div_mod (t1 - start) sweepInterval ltac:(done)) as H1.
  pose proof (Z.mod_pos_bound (t1 - start) sweepInterval ltac:(done)) as H1'.
  unfold sweepInterval in *. lia.
Qed.

(** Within one interval after [t] the timer has fired at least once past
    [t]. *)
Lemma sweepsBetween_fires (start t0 t t1 : Z) :
  start ≤ t0 → t0 ≤ t → t + sweepInterval ≤ t1 →
  ∃ s, s ∈ sweepsBetween start t0 t1 ∧ t < s.
Proof.
  intros Hstart H0t Ht1.
  pose proof (Z.div_mod (t0 - start) sweepInterval ltac:(done)) as H0.
  pose proof (Z.mod_pos_bound (t0 - start) sweepInterval ltac:(done)) as H0'.
  pose proof (Z.div_mod (t1 - start) sweepInterval ltac:(done)) as H1.
  pose proof (Z.mod_pos_bound (t1 - start) sweepInterval ltac:(done)) as H1'.
  exists (start + (t1 - start) `div` sweepInterval * sweepInterval). split.
  - apply sweepsBetween_elem. eexists. split; [done|].
    unfold sweepInterval in *. lia.
  - unfold sweepInterval in *. lia.
Qed.

Lemma sweepsBetween_split (start t0 t1 t2 s : Z) :
  start ≤ t0 → t0 ≤ t1 → t1 ≤ t2 →
  s ∈ sweepsBetween start t0 t2
  ↔ s ∈ sweepsBetween start t0 t1 ∨ s ∈ sweepsBetween start t1 t2.
Proof.
  intros Hstart H01 H12. rewrite !sweepsBetween_elem.
  assert (Hq0 : 0 ≤ (t0 - start) `div` sweepInterval)
    by (apply Z.div_pos; [lia|done]).
  assert (Hq01 : (t0 - start) `div` sweepInterval ≤ (t1 - start) `div` sweepInterval)
    by (apply Z.div_le_mono; [done|lia]).
  assert (Hq12 : (t1 - start) `div` sweepInterval ≤ (t2 - start) `div` sweepInterval)
    by (apply Z.div_le_mono; [done|lia]).
  revert Hq0 Hq01 Hq12.
  generalize ((t0 - start) `div` sweepInterval) as q0.
  generalize ((t1 - start) `div` sweepInterval) as q1.
  generalize ((t2 - start) `div` sweepInterval) as q2.
  intros q2 q1 q0 Hq0 Hq01 Hq12. split.
  - intros (k & -> & Hk). destruct (decide (k ≤ q1)).
    + left. exists k. split; [done|lia].
    + right. exists k. split; [done|lia].
  - intros [(k & -> & Hk)|(k & -> & Hk)]; exists k; (split; [done|lia]).
Qed.

Section Expiry.

Variable trim : string → string.
Variable stringifyStock : StockData → string.
Variable stringifyWeather : WeatherData → string.

(** Apart from the expiry sweep, the pending verification of [e] changes
    only when a verification for [e] is requested or when [e] is
    verified. *)
Lemma step_keeps_pending (now : Z) (ev : Event) (st : State) (e : string) :
  ¬ concerns trim e ev →
  pendingVerifications (step trim stringifyStock stringifyWeather now ev st).1.1
    !! e
  = pendingVerifications st !! e.
Proof.
  intros Hev. destruct ev; handler_cases; simpl in Hev.
  - apply lookup_insert_ne. congruence.
  - apply lookup_delete_ne. intros ->.
    match goal with
    | H : truthy email = Some _ |- _ => apply truthy_Some in H as [? _]
    end.
    done.
Qed.

(** The timers of the two pollers never write [pendingVerifications]. *)
Lemma pollers_keep_pending (now : Z) (ev : Event) (st : State) :
  match ev with
  | PollStock _ _ | PollWeather _ | Listening _ => True
  | _ => False
  end →
  pendingVerifications (step trim stringifyStock stringifyWeather now ev st).1.1
  = pendingVerifications st.
Proof. destruct ev; try done; intros _; handler_cases. Qed.

Lemma elapse_fate (start T clock t : Z) (issued : PendingVerification)
    (st : State) (e : string) :
  start ≤ T → T ≤ clock → clock ≤ t →
  pendingVerifications st !! e = fate start T clock issued →
  pendingVerifications (elapse start clock t st) !! e = fate start T t issued.
Proof.
  intros Hstart HT Hclock Hst. unfold elapse. rewrite sweeps_lookup, Hst.
  unfold fate.
  assert (Hsplit : Exists (λ s, expired s issued) (sweepsBetween start T t)
                   ↔ Exists (λ s, expired s issued) (sweepsBetween start T clock)
                     ∨ Exists (λ s, expired s issued) (sweepsBetween start clock t)).
  { rewrite !Exists_exists. split.
    - intros (s & [Hs|Hs]%(sweepsBetween_split start T clock t) & Hexp);
        [left|right|..]; eauto.
    - intros [(s & Hs & Hexp)|(s & Hs & Hexp)]; exists s; (split; [|done]);
        apply (sweepsBetween_split start T clock t); auto. }
  destruct (decide (Exists _ (sweepsBetween start T clock))) as [H1|H1]; simpl.
  - rewrite decide_True; [done|]. apply Hsplit. by left.
  - destruct (decide (Exists _ (sweepsBetween start clock t))) as [H2|H2].
    + rewrite decide_True; [done|]. apply Hsplit. by right.
    + rewrite decide_False; [done|]. rewrite Hsplit. tauto.
Qed.

Lemma serve_fate (start T clock until : Z) (evs : list (Z * Event))
    (issued : PendingVerification) (st : State) (e : string) :
  start ≤ T → T ≤ clock →
  chronological clock evs until →
  Forall (λ tev, ¬ concerns trim e tev.2) evs →
  pendingVerifications st !! e = fate start T clock issued →
  pendingVerifications
    (serve trim stringifyStock stringifyWeather start clock evs until st) !! e
  = fate start T until issued.
Proof.
  intros Hstart. revert clock st.
  induction evs as [|[t ev] evs IH]; intros clock st HT Hchron Hevs Hst.
  - by apply elapse_fate.
  - destruct Hchron as [Hclock Hchron]. apply Forall_cons in Hevs as [Hev Hevs].
    simpl. apply IH; [lia|done|done|].
    rewrite step_keeps_pending by done. by apply elapse_fate.
Qed.

Lemma fate_young (start T t : Z) (issued : PendingVerification) :
  start ≤ T → timestamp issued = T → t ≤ T + expirationTime →
  fate start T t issued = Some issued.
Proof.
  intros Hstart Hstamp Ht. unfold fate. rewrite decide_False; [done|].
  rewrite Exists_exists. intros (s & Hs%sweepsBetween_bounds & Hexp); [|done].
  unfold expired in Hexp. lia.
Qed.

Lemma fate_old (start T t : Z) (issued : PendingVerification) :
  start ≤ T → timestamp issued = T →
  T + expirationTime + sweepInterval ≤ t →
  fate start T t issued = None.
Proof.
  intros Hstart Hstamp Ht. unfold fate. rewrite decide_True; [done|].
  destruct (sweepsBetween_fires start T (T + expirationTime) t)
    as (s & Hs & Hlate); [done|unfold expirationTime; lia|lia|].
  apply Exists_exists. exists s. split; [done|]. unfold expired. lia.
Qed.

(** The sweep that removes an entry issued at [T] is the first one later
    than [T + 24h]; it comes within the hour. *)
Lemma nextSweep_bounds (start t : Z) :
  start ≤ t → t < nextSweep start t ≤ t + sweepInterval.
Proof.
  intros Hstart. unfold nextSweep.
  pose proof (Z.div_mod (t - start) sweepInterval ltac:(done)) as H0.
  pose proof (Z.mod_pos_bound (t - start) sweepInterval ltac:(done)) as H0'.
  assert (0 ≤ (t - start) `div` sweepInterval)
    by (apply Z.div_pos; [lia|done]).
  rewrite Z.max_r by done.
  revert H0 H0'. generalize ((t - start) `div` sweepInterval) as q.
  generalize ((t - start) `mod` sweepInterval) as r.
  unfold sweepInterval. lia.
Qed.

Lemma nextSweep_fires (start t0 t t1 : Z) :
  start ≤ t0 → t0 ≤ t → nextSweep start t ≤ t1 →
  nextSweep start t ∈ sweepsBetween start t0 t1.
Proof.
  intros Hstart H0t Ht1. apply sweepsBetween_elem.
  exists (Z.max 0 ((t - start) `div` sweepInterval) + 1). split; [done|].
  assert (Hq0 : 0 ≤ (t0 - start) `div` sweepInterval)
    by (apply Z.div_pos; [lia|done]).
  assert (Hq : (t0 - start) `div` sweepInterval ≤ (t - start) `div` sweepInterval)
    by (apply Z.div_le_mono; [done|lia]).
  split; [lia|].
  apply Z.div_le_lower_bound; [done|]. unfold nextSweep in Ht1. lia.
Qed.

Lemma nextSweep_first (start t0 t t1 s : Z) :
  start ≤ t0 → t0 ≤ t →
  s ∈ sweepsBetween start t0 t1 → t < s → nextSweep start t ≤ s.
Proof.
  intros Hstart H0t (k & -> & Hk)%sweepsBetween_elem Hts. unfold nextSweep.
  pose proof (Z.div_mod (t - start) sweepInterval ltac:(done)) as H0.
  pose proof (Z.mod_pos_bound (t - start) sweepInterval ltac:(done)) as H0'.
  assert (0 ≤ (t - start) `div` sweepInterval)
    by (apply Z.div_pos; [lia|done]).
  rewrite Z.max_r by done.
  revert H0 H0' Hts. generalize ((t - start) `div` sweepInterval) as q.
  generalize ((t - start) `mod` sweepInterval) as r.
  unfold sweepInterval. lia.
Qed.

Lemma fate_before_deadline (start T t : Z) (issued : PendingVerification) :
  start ≤ T → timestamp issued = T →
  t < nextSweep start (T + expirationTime) →
  fate start T t issued = Some issued.
Proof.
  intros Hstart Hstamp Ht. unfold fate. rewrite decide_False; [done|].
  rewrite Exists_exists. intros (s & Hs & Hexp).
  pose proof (sweepsBetween_bounds _ _ _ _ Hstart Hs) as Hbounds.
  pose proof (nextSweep_first start T (T + expirationTime) t s Hstart
                ltac:(unfold expirationTime; lia) Hs) as Hfirst.
  unfold expired in Hexp. lia.
Qed.

Lemma fate_after_deadline (start T t : Z) (issued : PendingVerification) :
  start ≤ T → timestamp issued = T →
  nextSweep start (T + expirationTime) ≤ t →
  fate start T t issued = None.
Proof.
  intros Hstart Hstamp Ht. unfold fate. rewrite decide_True; [done|].
  apply Exists_exists. exists (nextSweep start (T + expirationTime)).
  split.
  - apply nextSweep_fires; [done|unfold expirationTime; lia|done].
  - pose proof (nextSweep_bounds start (T + expirationTime)
                  ltac:(unfold expirationTime; lia)).
    unfold expired. lia.
Qed.

End Expiry.

Section Lifetime.

Variable trim : string → string.
Variable stringifyStock : StockData → string.
Variable stringifyWeather : WeatherData → string.

(** C6, as the code has it.  A verification for [e] is requested at [T]
    and, after any other activity, the link is followed at [t].  The
    [deadline] is the first time later than [T + 24h] at which the hourly
    sweep fires; it lies within the hour after [T + 24h], the sweep does run
    then, and no sweep run before it sees the entry as older than 24 hours.
    The link works at every [t] before the deadline, so up to [T + 24h] (at
    [T + 23h59m]) and also between [T + 24h] and the deadline, although the
    entry is then older than 24 hours: [/verify] does not look at its age.
    From the deadline on, so from [T + 25h] at the latest, the entry is gone
    and the link is refused without any change.  The pollers, the other
    timers of the server, leave [pendingVerifications] alone. *)
Theorem pending_verification_lifetime
    (start T t : Z) (st : State) (email : option string) (e newToken : string)
    (relay : RelayOutcome) (evs : list (Z * Event)) :
  truthy (trim <$> email) = Some e →
  subscriptions st !! e = None →
  newToken ≠ "" →
  start ≤ T →
  chronological T evs t →
  Forall (λ tev, ¬ concerns trim e tev.2) evs →
  let requested := (requestVerification trim email newToken T relay st).1.1 in
  let before :=
    serve trim stringifyStock stringifyWeather start T evs t requested in
  let attempt := verify (Some e) (Some newToken) t before in
  let deadline := nextSweep start (T + expirationTime) in
  (t ≤ T + expirationTime → attempt.2 = RedirectVerified e) ∧
  (T + expirationTime + sweepInterval ≤ t →
     attempt.2 = Send 400 "Invalid or expired verification link." ∧
     attempt.1.1 = before) ∧
  (∀ now ev st',
     match ev with
     | PollStock _ _ | PollWeather _ | Listening _ => True
     | _ => False
     end →
     pendingVerifications
       (step trim stringifyStock stringifyWeather now ev st').1.1
     = pendingVerifications st') ∧
  T + expirationTime < deadline ≤ T + expirationTime + sweepInterval ∧
  (deadline ≤ t → deadline ∈ sweepsBetween start T t) ∧
  (∀ s, s ∈ sweepsBetween start T t → T + expirationTime < s → deadline ≤ s) ∧
  (t < deadline →
     attempt.2 = RedirectVerified e ∧
     pendingVerifications attempt.1.1 !! e = None ∧
     is_Some (verifiedEmails attempt.1.1 !! e)) ∧
  (deadline ≤ t →
     pendingVerifications before !! e = None ∧
     attempt.2 = Send 400 "Invalid or expired verification link." ∧
     attempt.1.1 = before).
Proof.
  intros He Hsub Htok Hstart Hchron Hevs requested before attempt deadline.
  pose (issued := {| token := newToken; timestamp := T |}).
  assert (Hreq : pendingVerifications requested !! e = Some issued).
  { subst requested. unfold requestVerification. rewrite He.
    rewrite bool_decide_eq_false_2 by (rewrite Hsub; by intros [? ?]).
    apply lookup_insert_eq. }
  assert (Hbefore : pendingVerifications before !! e = fate start T t issued).
  { apply serve_fate; try done. rewrite Hreq. symmetry.
    apply fate_young; [done|done|]. unfold expirationTime. lia. }
  assert (He' : truthy (Some e) = Some e)
    by (apply truthy_Some; split; [done|]; by apply truthy_Some in He as [_ ?]).
  assert (Htok' : truthy (Some newToken) = Some newToken)
    by (by apply truthy_Some).
  assert (H24 : T ≤ T + expirationTime) by (unfold expirationTime; lia).
  pose proof (nextSweep_bounds start (T + expirationTime) ltac:(lia))
    as Hdeadline.
  split; [|split; [|split; [|split; [|split; [|split; [|split]]]]]].
  - intros Ht. subst attempt. unfold verify.
    rewrite He', Htok', Hbefore, fate_young by done. simpl.
    by rewrite String.eqb_refl.
  - intros Ht. subst attempt. unfold verify.
    by rewrite He', Htok', Hbefore, fate_old.
  - intros now ev st'. apply pollers_keep_pending.
  - done.
  - intros Ht. by apply nextSweep_fires.
  - intros s Hs Hlate. by apply (nextSweep_first start T _ t).
  - intros Ht. subst attempt. unfold verify.
    rewrite He', Htok', Hbefore, fate_before_deadline by done. simpl.
    rewrite String.eqb_refl. simpl. split; [done|]. split.
    + apply lookup_delete_eq.
    + rewrite lookup_insert_eq. by eexists.
  - intros Ht. rewrite Hbefore, fate_after_deadline by done.
    split; [done|]. subst attempt. unfold verify.
    by rewrite He', Htok', Hbefore, fate_after_deadline.
Qed.

End Lifetime.

(** A link issued half an hour after start-up is followed 24 hours and one
    minute later.  The sweep has fired every hour, the last time when the
    entry was 23.5 hours old, and the verification succeeds. *)
Lemma verify_succeeds_after_24h01m :
  let T := 30 * Example.minute in
  let t := T + 24 * Example.hour + Example.minute in
  let requested :=
    (requestVerification Example.trim (Some "a@x.com") "c0ffee" T
       (Delivered "250 OK") initialState).1.1 in
  let before :=
    serve Example.trim Example.stringifyStock Example.stringifyWeather
      0 T [] t requested in
  pendingVerifications requested !! "a@x.com"
  = Some {| token := "c0ffee"; timestamp := T |} ∧
  sweepsBetween 0 T t = (λ k : nat, Z.of_nat k * Example.hour) <$> seq 1 24 ∧
  T + 24 * Example.hour + Example.minute ≤ t ∧
  (verify (Some "a@x.com") (Some "c0ffee") t before).2
  = RedirectVerified "a@x.com".
Proof. by vm_compute. Qed.

Lemma pending_verification_lifetime_witness :
  let T := 30 * Example.minute in
  let requested :=
    (requestVerification Example.trim (Some "a@x.com") "c0ffee" T
       (Delivered "250 OK") initialState).1.1 in
  let followed t :=
    (verify (Some "a@x.com") (Some "c0ffee") t
       (serve Example.trim Example.stringifyStock Example.stringifyWeather
          0 T [(T + Example.hour, PollWeather (FetchOk Example.rain))] t
          requested)).2 in
  followed (T + 23 * Example.hour + 59 * Example.minute)
  = RedirectVerified "a@x.com" ∧
  followed (T + 25 * Example.hour)
  = Send 400 "Invalid or expired verification link." ∧
  nextSweep 0 (T + expirationTime) = 25 * Example.hour ∧
  followed (T + 24 * Example.hour + Example.minute)
  = RedirectVerified "a@x.com" ∧
  followed (25 * Example.hour)
  = Send 400 "Invalid or expired verification link.".
Proof.
  intros T requested followed.
  assert (Hothers :
            Forall (λ tev : Z * Event, ¬ concerns Example.trim "a@x.com" tev.2)
              [(T + Example.hour, PollWeather (FetchOk Example.rain))])
    by (repeat constructor; simpl; tauto).
  split; [|split; [|split; [|split]]].
  - pose proof (pending_verification_lifetime Example.trim Example.stringifyStock
                  Example.stringifyWeather 0 T
                  (T + 23 * Example.hour + 59 * Example.minute) initialState
                  (Some "a@x.com") "a@x.com" "c0ffee" (Delivered "250 OK")
                  [(T + Example.hour, PollWeather (FetchOk Example.rain))]
                  ltac:(by vm_compute) ltac:(by vm_compute) ltac:(done)
                  ltac:(by vm_compute) ltac:(by vm_compute) Hothers)
      as (Hyoung & _).
    apply Hyoung. by vm_compute.
  - pose proof (pending_verification_lifetime Example.trim Example.stringifyStock
                  Example.stringifyWeather 0 T (T + 25 * Example.hour)
                  initialState
                  (Some "a@x.com") "a@x.com" "c0ffee" (Delivered "250 OK")
                  [(T + Example.hour, PollWeather (FetchOk Example.rain))]
                  ltac:(by vm_compute) ltac:(by vm_compute) ltac:(done)
                  ltac:(by vm_compute) ltac:(by vm_compute) Hothers)
      as (_ & Hold & _).
    apply Hold. by vm_compute.
  - by vm_compute.
  - pose proof (pending_verification_lifetime Example.trim Example.stringifyStock
                  Example.stringifyWeather 0 T
                  (T + 24 * Example.hour + Example.minute) initialState
                  (Some "a@x.com") "a@x.com" "c0ffee" (Delivered "250 OK")
                  [(T + Example.hour, PollWeather (FetchOk Example.rain))]
                  ltac:(by vm_compute) ltac:(by vm_compute) ltac:(done)
                  ltac:(by vm_compute) ltac:(by vm_compute) Hothers)
      as (_ & _ & _ & _ & _ & _ & Hwindow & _).
    apply Hwindow. by vm_compute.
  - pose proof (pending_verification_lifetime Example.trim Example.stringifyStock
                  Example.stringifyWeather 0 T (25 * Example.hour)
                  initialState
                  (Some "a@x.com") "a@x.com" "c0ffee" (Delivered "250 OK")
                  [(T + Example.hour, PollWeather (FetchOk Example.rain))]
                  ltac:(by vm_compute) ltac:(by vm_compute) ltac:(done)
                  ltac:(by vm_compute) ltac:(by vm_compute) Hothers)
      as (_ & _ & _ & _ & _ & _ & _ & Hgone).
    apply Hgone. by vm_compute.
Defined.

(** * The WebSocket variant

    The same properties on the functions of the variant: its composer
    moreover ignores entries whose [item_id] is missing or empty, it keeps
    no [verifiedEmails], and an unknown e-mail gets a 404. *)

Lemma ws_allStockItems_elem (data : StockData) (item : StockItem) :
  item ∈ WsVariant.allStockItems data
  ↔ (∃ category items,
       category ∈ WsVariant.stockCategories ∧ data !! category = Some items ∧
       item ∈ items) ∧
    WsVariant.hasId item = true.
Proof.
  unfold WsVariant.allStockItems.
  rewrite (foldl_push_elem (List.filter WsVariant.hasId)). split.
  - intros [H|(c & items & Hc & Hd & Hi)]; [by inversion H|].
    rewrite list_elem_of_In, filter_In, <- list_elem_of_In in Hi.
    destruct Hi as [Hi Hid]. split; [|done]. by exists c, items.
  - intros [(c & items & Hc & Hd & Hi) Hid]. right. exists c, items.
    split_and!; [done..|].
    by rewrite list_elem_of_In, filter_In, <- list_elem_of_In.
Qed.

Lemma filter_all {A} (p : A → bool) (l : list A) :
  (∀ x, x ∈ l → p x = true) → List.filter p l = l.
Proof.
  induction l as [|x l IH]; intros Hall; [done|]. simpl.
  rewrite Hall by left. f_equal. apply IH. intros y Hy. apply Hall. by right.
Qed.

(** X21. The composer of the variant: as for C1, restricted to the entries
    that carry an identifier. *)
Lemma ws_buildStockHtmlEmail_selects
    (st : State) (data : StockData) (email : string) (watch : gset string) :
  subscriptions st !! email = Some watch →
  let chosen := WsVariant.inStockItems watch data in
  (∀ item, item ∈ chosen ↔
     (∃ category items, category ∈ WsVariant.stockCategories ∧
        data !! category = Some items ∧ item ∈ items) ∧
     (∃ i, item_id item = Some i ∧ i ≠ "" ∧ i ∈ watch) ∧
     0 < quantity item) ∧
  (chosen = [] → WsVariant.buildStockHtmlEmail st data email = None) ∧
  (chosen ≠ [] →
     WsVariant.buildStockHtmlEmail st data email
     = Some (StockBody (WsVariant.stockRow (itemInfo st) <$> chosen) email)).
Proof.
  intros Hsub chosen.
  assert (Hchosen : ∀ item, item ∈ chosen ↔
            (∃ category items, category ∈ WsVariant.stockCategories ∧
               data !! category = Some items ∧ item ∈ items) ∧
            (∃ i, item_id item = Some i ∧ i ≠ "" ∧ i ∈ watch) ∧
            0 < quantity item).
  { intros item. subst chosen. unfold WsVariant.inStockItems.
    rewrite list_elem_of_In, filter_In, <- list_elem_of_In.
    rewrite ws_allStockItems_elem, selected_spec. unfold WsVariant.hasId, falsy.
    split.
    - intros [[Hcat Hid] [(i & Hi & Hw) Hq]]. split_and!; [done| |done].
      exists i. rewrite Hi in Hid. split_and!; [done| |done].
      intros ->. done.
    - intros (Hcat & (i & Hi & Hne & Hw) & Hq). split_and!; [done| |by exists i|done].
      rewrite Hi. by destruct (String.eqb_spec i ""). }
  split_and!; [done|..].
  - intros Hnil. unfold WsVariant.buildStockHtmlEmail. rewrite Hsub. simpl.
    fold chosen. by rewrite Hnil.
  - intros Hne. unfold WsVariant.buildStockHtmlEmail. rewrite Hsub. simpl.
    fold chosen. rewrite filter_all.
    + destruct chosen; [done|]. rewrite bool_decide_eq_true_2; [done|]. simpl. lia.
    + intros item (_ & (i & Hi & Hnz & _) & _)%Hchosen.
      unfold WsVariant.hasId, falsy. rewrite Hi.
      by destruct (String.eqb_spec i "").
Qed.

Section WsWeather.

Variable stringifyWeather : WeatherData → string.

Lemma ws_weatherFanout_once (st : State) (data : WeatherData) (a : WeatherEvent)
    (email : string) :
  mailsTo email (wsMailsOf (WsVariant.weatherFanout st data a))
  = if bool_decide (is_Some (subscriptions st !! email)) then 1%nat else 0%nat.
Proof.
  assert (Hmails : wsMailsOf (WsVariant.weatherFanout st data a)
            = (λ kv : string * gset string,
                 {| mail_to := kv.1;
                    mail_subject :=
                      SubjWeatherEvent (interpolate (weather_name a));
                    mail_html :=
                      buildWeatherHtmlEmail a (discord_invite data) kv.1 |})
              <$> map_to_list (subscriptions st)).
  { unfold WsVariant.weatherFanout, wsMailsOf.
    induction (map_to_list (subscriptions st)) as [|kv l IH]; [done|].
    by rewrite bind_cons, omap_app, fmap_cons, IH. }
  rewrite Hmails. unfold mailsTo. rewrite filter_fmap_length. cbn [mail_to].
  rewrite count_key by apply NoDup_fst_map_to_list.
  by rewrite (bool_decide_ext _ _ (elem_of_keys (subscriptions st) email)).
Qed.

(** The weather poller of the variant notifies as in C2 whenever both
    snapshots carry a [weather] array. *)
Lemma ws_pollWeatherAPI_notifies_new_active_event_only
    (st : State) (prev : option WeatherData) (new : WeatherData)
    (attempt maxAttempts : nat) :
  lastWeather stringifyWeather st prev →
  is_Some (weather new) →
  (∀ p, prev = Some p → is_Some (weather p)) →
  let changed := stringifyWeather <$> prev ≠ Some (stringifyWeather new) in
  let effects :=
    (WsVariant.pollWeatherAPI stringifyWeather (FetchOk new)
       attempt maxAttempts st).2 in
  (∀ x, activeId prev = Some x → activeId (Some new) = Some x →
        wsMailsOf effects = []) ∧
  (∀ y, activeId (Some new) = Some y → activeId prev ≠ Some y → changed →
        ∀ email, mailsTo email (wsMailsOf effects)
                 = if bool_decide (is_Some (subscriptions st !! email))
                   then 1%nat else 0%nat) ∧
  (activeId (Some new) = None → wsMailsOf effects = []).
Proof.
  intros [Hobj Hjson] [events Hevents] Hprev changed effects. subst effects.
  unfold WsVariant.pollWeatherAPI. rewrite Hobj, Hjson.
  unfold activeId, activeEventOf, WsVariant.findActive. simpl. rewrite Hevents.
  simpl.
  assert (Hp : ∃ pa, match prev with
                     | Some obj => List.find active <$> weather obj
                     | None => Some None
                     end = Some pa ∧
                     prev ≫= (λ data, weather data ≫= List.find active) = pa).
  { destruct prev as [p|]; [|by exists None].
    destruct (Hprev p eq_refl) as [evs Hevs]. simpl. rewrite Hevs. simpl. eauto. }
  destruct Hp as (pa & -> & ->). simpl.
  destruct (hasDataChanged _ _) eqn:Hch.
  2:{ apply hasDataChanged_false in Hch. by split_and!. }
  simpl. split_and!.
  - intros x Hp Hn.
    destruct (List.find active events) as [a|]; [|done].
    destruct pa as [p|]; [|done].
    simpl in *. injection Hp as Hp. injection Hn as Hn.
    rewrite bool_decide_eq_false_2; [done|]. intros Hne. congruence.
  - intros y Hn Hp _ email.
    destruct (List.find active events) as [a|]; [|done]. injection Hn as Hn.
    destruct pa as [p|]; [|apply ws_weatherFanout_once].
    simpl in Hp. rewrite bool_decide_eq_true_2; [apply ws_weatherFanout_once|].
    intros Heq. apply Hp. congruence.
  - intros Hn. destruct (List.find active events) as [a|]; [done|].
    by destruct pa.
Qed.

End WsWeather.

Section WsStore.

Variable trim : string → string.

(** Single use of the token in the variant (C5). *)
Lemma ws_verify_token_is_single_use
    (st : State) (email queryToken : option string) :
  let first := WsVariant.verify email queryToken st in
  let second := WsVariant.verify email queryToken first.1.1 in
  (first.2 = WsVariant.WsRedirectVerified email →
     (∃ e v, email = Some e ∧ pendingVerifications st !! e = Some v ∧
             queryToken = Some (token v)) ∧
     second.2 = WsVariant.WsSend 400 "Invalid or expired verification link." ∧
     second.1.1 = first.1.1) ∧
  (first.2 ≠ WsVariant.WsRedirectVerified email → first.1.1 = st).
Proof.
  intros first second. subst second first. unfold WsVariant.verify.
  destruct email as [e|]; simpl; [|done].
  destruct (pendingVerifications st !! e) as [v|] eqn:Hv; [|done].
  destruct (bool_decide _) eqn:Htok; [|done]. decide_hyps. simpl.
  rewrite lookup_delete_eq. split; [|done]. intros _. split; [|done].
  by exists e, v.
Qed.

(** Subscribing replaces the watch set in the variant (C7); no prior
    verification is asked for. *)
Lemma ws_subscribe_replaces_watch_set
    (st : State) (email : option string) (S1 S2 : ItemsField) (e : string) :
  truthy (trim <$> email) = Some e →
  itemsOf S1 ≠ [] →
  itemsOf S2 ≠ [] →
  let st1 := (WsVariant.subscribe trim email S1 st).1.1 in
  let st2 := (WsVariant.subscribe trim email S2 st1).1.1 in
  subscriptions st2 !! e = Some (list_to_set (itemsOf S2)).
Proof.
  intros He H1 H2 st1 st2. subst st2. unfold WsVariant.subscribe at 1.
  rewrite He.
  rewrite (bool_decide_eq_false_2 (length (itemsOf S2) = 0%nat))
    by (by destruct (itemsOf S2)).
  apply lookup_insert_eq.
Qed.

(** Unsubscribing in the variant (C8): an e-mail without subscription, a
    missing one included, gets the 404 answer and the store is untouched. *)
Lemma ws_unsub_reports_not_found_or_removes (st : State) (email : option string) :
  ((∀ e, trim <$> email = Some e → subscriptions st !! e = None) →
     (WsVariant.unsub trim email st).1.1 = st ∧
     (WsVariant.unsub trim email st).2 = WsVariant.WsSend 404 "Email not found.") ∧
  (∀ e, trim <$> email = Some e → is_Some (subscriptions st !! e) →
     (WsVariant.unsub trim email st).2 = WsVariant.WsRedirectUnsubscribed ∧
     subscriptions (WsVariant.unsub trim email st).1.1 !! e = None).
Proof.
  unfold WsVariant.unsub. destruct (trim <$> email) as [e|]; [|by split].
  split.
  - intros Hnone. rewrite bool_decide_eq_false_2; [done|].
    rewrite (Hnone e eq_refl). by intros [? ?].
  - intros ? [= <-] Hsome. rewrite bool_decide_eq_true_2 by done. simpl.
    split; [done|apply lookup_delete_eq].
Qed.

End WsStore.

(** * Further properties of the polling server *)

(** ** Stock fan-out *)

Lemma mailsTo_omap_absent {A} (g : string * A → option Mail)
    (l : list (string * A)) (email : string) :
  (∀ kv m, g kv = Some m → mail_to m = kv.1) →
  email ∉ l.*1 →
  mailsTo email (omap g l) = 0%nat.
Proof.
  intros Hto. induction l as [|kv l IH]; intros Hnot; [done|].
  rewrite fmap_cons in Hnot. apply not_elem_of_cons in Hnot as [Hne Hnot].
  cbn [omap list_omap]. destruct (g kv) as [m|] eqn:Hg; [|by apply IH].
  unfold mailsTo in *. cbn [List.filter].
  rewrite bool_decide_eq_false_2 by (rewrite (Hto _ _ Hg); congruence).
  by apply IH.
Qed.

(** Over bindings with distinct keys, a function that yields at most one
    mail per binding, addressed to its key, yields at most one mail per
    address. *)
Lemma mailsTo_omap_present {A} (g : string * A → option Mail)
    (l : list (string * A)) (email : string) (v : A) :
  (∀ kv m, g kv = Some m → mail_to m = kv.1) →
  NoDup l.*1 →
  (email, v) ∈ l →
  mailsTo email (omap g l) = if g (email, v) is Some _ then 1%nat else 0%nat.
Proof.
  intros Hto. induction l as [|kv l IH]; intros Hnd Hin; [by inversion Hin|].
  rewrite fmap_cons in Hnd. apply NoDup_cons in Hnd as [Hfresh Hnd].
  apply elem_of_cons in Hin as [<-|Hin].
  - cbn [omap list_omap]. simpl in Hfresh.
    destruct (g (email, v)) as [m|] eqn:Hg.
    + unfold mailsTo. cbn [List.filter].
      rewrite bool_decide_eq_true_2 by apply (Hto _ _ Hg). cbn [length].
      f_equal. by apply (mailsTo_omap_absent g).
    + by apply (mailsTo_omap_absent g).
  - assert (Hne : kv.1 ≠ email).
    { intros Heq. apply Hfresh. rewrite Heq.
      apply list_elem_of_fmap. by exists (email, v). }
    cbn [omap list_omap]. destruct (g kv) as [m|] eqn:Hg; [|by apply IH].
    unfold mailsTo in *. cbn [List.filter].
    rewrite bool_decide_eq_false_2 by (rewrite (Hto _ _ Hg); congruence).
    by apply IH.
Qed.

Lemma mailsOf_stockFanout (st : State) (data : StockData) :
  mailsOf (stockFanout st data)
  = omap (stockMailFor st data) (map_to_list (subscriptions st)).
Proof.
  unfold stockFanout, mailsOf.
  induction (map_to_list (subscriptions st)) as [|kv l IH]; [done|].
  rewrite bind_cons, omap_app, IH. cbn [omap list_omap].
  unfold stockMailFor at 2. by destruct (buildStockHtmlEmail st data kv.1).
Qed.

Lemma stockMailFor_to (st : State) (data : StockData)
    (kv : string * gset string) (m : Mail) :
  stockMailFor st data kv = Some m → mail_to m = kv.1.
Proof.
  unfold stockMailFor. destruct (buildStockHtmlEmail _ _ _); [|done].
  by intros [= <-].
Qed.

Lemma buildStockHtmlEmail_Some (st : State) (data : StockData) (email : string) :
  buildStockHtmlEmail st data email
  = watch ← subscriptions st !! email;
    if bool_decide (inStockItems watch data ≠ [])
    then Some (StockBody (stockRow (itemInfo st) <$> inStockItems watch data) email)
    else None.
Proof.
  unfold buildStockHtmlEmail. destruct (subscriptions st !! email) as [watch|];
    [|done].
  simpl. by destruct (inStockItems watch data).
Qed.

(** The mails of one stock fan-out, counted per address. *)
Lemma stockFanout_count (st : State) (data : StockData) (email : string) :
  mailsTo email (mailsOf (stockFanout st data))
  = match subscriptions st !! email with
    | Some watch => if bool_decide (inStockItems watch data ≠ []) then 1%nat else 0%nat
    | None => 0%nat
    end.
Proof.
  rewrite mailsOf_stockFanout.
  destruct (subscriptions st !! email) as [watch|] eqn:Hsub.
  - rewrite (mailsTo_omap_present _ _ email watch).
    + unfold stockMailFor. rewrite buildStockHtmlEmail_Some. simpl. rewrite Hsub.
      simpl. by destruct (bool_decide _).
    + apply stockMailFor_to.
    + apply NoDup_fst_map_to_list.
    + by apply elem_of_map_to_list.
  - apply mailsTo_omap_absent; [apply stockMailFor_to|].
    rewrite elem_of_keys, Hsub. by intros [? ?].
Qed.

Lemma stockFanout_mails (st : State) (data : StockData) (m : Mail) :
  m ∈ mailsOf (stockFanout st data) →
  mail_subject m = SubjStockUpdated ∧
  ∃ watch, subscriptions st !! mail_to m = Some watch ∧
           inStockItems watch data ≠ [] ∧
           mail_html m
           = StockBody (stockRow (itemInfo st) <$> inStockItems watch data)
               (mail_to m).
Proof.
  rewrite mailsOf_stockFanout, list_elem_of_omap.
  intros ([k v] & Hin & Hm). apply elem_of_map_to_list in Hin.
  unfold stockMailFor in Hm. rewrite buildStockHtmlEmail_Some in Hm.
  simpl in Hm. rewrite Hin in Hm. simpl in Hm.
  destruct (bool_decide _) eqn:Hne; [|done]. decide_hyps.
  injection Hm as <-. simpl. split; [done|]. by exists v.
Qed.

Lemma fetchItemInfo_frame (resp : FetchResult (list RawItemInfo)) (st : State) :
  subscriptions (fetchItemInfo resp st).1 = subscriptions st ∧
  verifiedEmails (fetchItemInfo resp st).1 = verifiedEmails st ∧
  pendingVerifications (fetchItemInfo resp st).1 = pendingVerifications st ∧
  mailsOf (fetchItemInfo resp st).2 = [].
Proof. by destruct resp. Qed.

Section StockFanout.

Variable stringifyStock : StockData → string.

(** What a poll that sees a change does, spelled out. *)
Lemma pollStockAPI_changed (st : State) (data : StockData)
    (infoResp : FetchResult (list RawItemInfo)) :
  latestStockDataJSON st ≠ Some (stringifyStock data) →
  ∃ st2 fetched,
    pollStockAPI stringifyStock (FetchOk data) infoResp st
    = (st2, Log LogStockChanged :: fetched ++ stockFanout st2 data) ∧
    mailsOf fetched = [] ∧
    subscriptions st2 = subscriptions st ∧
    latestStockDataJSON st2 = Some (stringifyStock data) ∧
    latestStockDataObj st2 = Some data.
Proof.
  intros Hch. unfold pollStockAPI.
  rewrite (proj2 (hasDataChanged_true _ _) Hch).
  destruct (bool_decide _).
  - destruct (fetchItemInfo infoResp _) as [st2 fetched] eqn:Hf.
    exists st2, fetched. split; [done|].
    change st2 with (st2, fetched).1. change fetched with (st2, fetched).2 at 1.
    rewrite <- Hf. destruct (fetchItemInfo_frame infoResp
      (set_stock (stringifyStock data) data st)) as (-> & _ & _ & ->).
    by destruct infoResp.
  - eexists _, []. by split.
Qed.

(** X1. When the stock poller sees a changed snapshot, every subscriber
    with at least one watched item in stock is sent exactly one stock mail,
    listing exactly those items, and nobody else is sent anything. *)
Theorem pollStockAPI_fans_out_once (st : State) (data : StockData)
    (infoResp : FetchResult (list RawItemInfo)) :
  latestStockDataJSON st ≠ Some (stringifyStock data) →
  let r := pollStockAPI stringifyStock (FetchOk data) infoResp st in
  (∀ email,
     mailsTo email (mailsOf r.2)
     = match subscriptions st !! email with
       | Some watch =>
           if bool_decide (inStockItems watch data ≠ []) then 1%nat else 0%nat
       | None => 0%nat
       end) ∧
  (∀ m, m ∈ mailsOf r.2 →
     mail_subject m = SubjStockUpdated ∧
     ∃ watch, subscriptions st !! mail_to m = Some watch ∧
              mail_html m
              = StockBody (stockRow (itemInfo r.1) <$> inStockItems watch data)
                  (mail_to m)).
Proof.
  intros Hch r. subst r.
  destruct (pollStockAPI_changed st data infoResp Hch)
    as (st2 & fetched & -> & Hfetched & Hsubs & _).
  cbn [fst snd]. assert (Hmails : mailsOf (Log LogStockChanged :: fetched
                                            ++ stockFanout st2 data)
                                  = mailsOf (stockFanout st2 data)).
  { unfold mailsOf in *. cbn [omap list_omap]. by rewrite omap_app, Hfetched. }
  rewrite Hmails. split.
  - intros email. by rewrite stockFanout_count, Hsubs.
  - intros m Hm. destruct (stockFanout_mails st2 data m Hm)
      as (Hsubj & watch & Hw & _ & Hhtml).
    split; [done|]. exists watch. by rewrite <- Hsubs.
Qed.

End StockFanout.

Lemma pollStockAPI_fans_out_once_witness :
  let r := pollStockAPI Example.stringifyStock (FetchOk Example.stockABC)
             (FetchError "offline") Example.watchingAB in
  mailsTo "a@x.com" (mailsOf r.2) = 1%nat ∧
  mailsTo "b@x.com" (mailsOf r.2) = 0%nat.
Proof.
  pose proof (pollStockAPI_fans_out_once Example.stringifyStock
                Example.watchingAB Example.stockABC (FetchError "offline")
                ltac:(done)) as [Hcount _].
  split; rewrite Hcount; by vm_compute.
Defined.

(** ** Invariants of the store *)

Lemma keepItemInfo_ids (raw : list RawItemInfo) :
  Forall (λ i, info_item_id i ≠ "") (keepItemInfo raw).
Proof.
  apply Forall_forall. intros i (r & _ & Hr)%list_elem_of_omap.
  destruct (raw_item_id r) as [id|]; [|done].
  destruct (String.eqb_spec id ""); [done|]. by injection Hr as <-.
Qed.

Lemma list_to_set_nonempty (items : list string) :
  items ≠ [] → list_to_set (C := gset string) items ≠ ∅.
Proof.
  destruct items as [|i items]; [done|]. intros _ Hempty.
  assert (Hin : i ∈ list_to_set (C := gset string) (i :: items))
    by (apply elem_of_list_to_set; left).
  rewrite Hempty in Hin. by apply not_elem_of_empty in Hin.
Qed.

Section Invariants.

Variable trim : string → string.
Variable stringifyStock : StockData → string.
Variable stringifyWeather : WeatherData → string.

Local Abbreviation step := (step trim stringifyStock stringifyWeather).
Local Abbreviation reachable :=
  (reachable trim stringifyStock stringifyWeather).

(** X2. No map of the store ever has the empty string as a key: every
    handler that inserts checks its e-mail for truthiness first. *)
Theorem keys_are_never_blank (st : State) :
  reachable st →
  pendingVerifications st !! "" = None ∧
  verifiedEmails st !! "" = None ∧
  subscriptions st !! "" = None.
Proof.
  induction 1 as [|now ev st _ (Hp & Hv & Hs)|now st _ (Hp & Hv & Hs)].
  - done.
  - destruct ev; handler_cases;
      repeat match goal with
        | H : truthy _ = Some _ |- _ => apply truthy_Some in H as [? ?]
        end;
      rewrite ?lookup_insert_ne, ?lookup_delete_None by done; auto.
  - split_and!; [|done..]. simpl. apply map_lookup_filter_None. by left.
Qed.

(** X3. A stored watch set is never empty. *)
Theorem watch_sets_are_never_empty (st : State) :
  reachable st →
  ∀ email watch, subscriptions st !! email = Some watch → watch ≠ ∅.
Proof.
  induction 1 as [|now ev st _ IH|now st _ IH]; [done| |done].
  intros e watch. specialize (IH e watch).
  destruct ev; handler_cases; decide_hyps.
  - match goal with
    | |- <[?k := _]> _ !! _ = _ → _ => destruct (decide (k = e)) as [->|Hne]
    end.
    + rewrite lookup_insert_eq. intros [= <-]. apply list_to_set_nonempty.
      match goal with H : length _ ≠ 0%nat |- _ => intros Hnil; apply H end.
      by rewrite Hnil.
    + by rewrite lookup_insert_ne.
  - intros [_ Hw]%lookup_delete_Some. auto.
Qed.

(** X4. The serialized form held for change detection is always the
    serialized form of the snapshot held beside it, for stock and for
    weather; both are absent before the first successful poll. *)
Theorem snapshots_match_their_serialized_form (st : State) :
  reachable st →
  latestStockDataJSON st = stringifyStock <$> latestStockDataObj st ∧
  latestWeatherDataJSON st = stringifyWeather <$> latestWeatherDataObj st.
Proof.
  induction 1 as [|now ev st _ [Hs Hw]|now st _ IH]; [done| |done].
  destruct ev; handler_cases.
Qed.

(** X5. Every entry kept in the item catalogue has a non-empty
    [item_id]. *)
Theorem catalogue_entries_have_ids (st : State) :
  reachable st → Forall (λ i, info_item_id i ≠ "") (itemInfo st).
Proof.
  induction 1 as [|now ev st _ IH|now st _ IH]; [by constructor| |done].
  destruct ev; handler_cases; apply keepItemInfo_ids.
Qed.

(** X6. A request that is turned down (a 400 answer, an error page, the
    not-found page) leaves the whole store as it was. *)
Theorem rejected_request_changes_nothing (now : Z) (ev : Event) (st : State)
    (r : Response) :
  (step now ev st).2 = Some r →
  accepted r = false →
  (step now ev st).1.1 = st.
Proof. destruct ev; handler_cases; by intros [= <-]. Qed.

(** X7. The timers of the two pollers never touch the subscription store,
    and a failed fetch changes nothing at all. *)
Theorem pollers_leave_subscription_store (now : Z) (ev : Event) (st : State) :
  (step now ev st).2 = None →
  (subscriptions (step now ev st).1.1 = subscriptions st ∧
   verifiedEmails (step now ev st).1.1 = verifiedEmails st ∧
   pendingVerifications (step now ev st).1.1 = pendingVerifications st) ∧
  (∀ msg info,
     ev = PollStock (FetchError msg) info ∨ ev = PollWeather (FetchError msg) →
     (step now ev st).1.1 = st ∧ mailsOf (step now ev st).1.2 = []).
Proof.
  intros Htimer. split.
  - destruct ev; try done; handler_cases.
  - by intros msg info [-> | ->].
Qed.

End Invariants.

Lemma keys_are_never_blank_witness :
  pendingVerifications Example.polled !! "" = None ∧
  verifiedEmails Example.polled !! "" = None ∧
  subscriptions Example.polled !! "" = None.
Proof.
  apply (keys_are_never_blank Example.trim Example.stringifyStock
           Example.stringifyWeather).
  apply serve_reachable, reachable_initial.
Defined.

Lemma watch_sets_are_never_empty_witness :
  ({[ "A"; "B" ]} : gset string) ≠ ∅.
Proof.
  apply (watch_sets_are_never_empty Example.trim Example.stringifyStock
           Example.stringifyWeather Example.polled
           ltac:(apply serve_reachable, reachable_initial) "a@x.com").
  by vm_compute.
Defined.

Lemma snapshots_match_their_serialized_form_witness :
  latestStockDataObj Example.polled = Some Example.stockABC ∧
  latestStockDataJSON Example.polled
  = Some (Example.stringifyStock Example.stockABC) ∧
  latestWeatherDataJSON Example.polled
  = Example.stringifyWeather <$> latestWeatherDataObj Example.polled.
Proof.
  assert (Hobj : latestStockDataObj Example.polled = Some Example.stockABC)
    by (by vm_compute).
  destruct (snapshots_match_their_serialized_form Example.trim
              Example.stringifyStock Example.stringifyWeather Example.polled
              ltac:(apply serve_reachable, reachable_initial)) as [Hs Hw].
  split_and!; [done| |done]. by rewrite Hs, Hobj.
Defined.

Lemma catalogue_entries_have_ids_witness :
  itemInfo Example.polled
  = [{| info_item_id := "A"; info_icon := Some "https://cdn.example/a.png" |}] ∧
  Forall (λ i, info_item_id i ≠ "") (itemInfo Example.polled).
Proof.
  split; [by vm_compute|].
  apply (catalogue_entries_have_ids Example.trim Example.stringifyStock
           Example.stringifyWeather).
  apply serve_reachable, reachable_initial.
Defined.

Lemma rejected_request_changes_nothing_witness :
  (step Example.trim Example.stringifyStock Example.stringifyWeather
     Example.hour (PostSubscribe (Some "b@x.com") (ItemsArray ["A"]))
     Example.watchingAB).1.1
  = Example.watchingAB.
Proof.
  apply (rejected_request_changes_nothing Example.trim Example.stringifyStock
           Example.stringifyWeather Example.hour
           (PostSubscribe (Some "b@x.com") (ItemsArray ["A"]))
           Example.watchingAB (Json 400 false "Email not verified"));
    by vm_compute.
Defined.

Lemma pollers_leave_subscription_store_witness :
  subscriptions
    (step Example.trim Example.stringifyStock Example.stringifyWeather
       Example.hour (PollWeather (FetchOk Example.rain)) Example.watchingAB).1.1
  = subscriptions Example.watchingAB.
Proof.
  by destruct (pollers_leave_subscription_store Example.trim
                 Example.stringifyStock Example.stringifyWeather Example.hour
                 (PollWeather (FetchOk Example.rain)) Example.watchingAB
                 ltac:(done)) as [(Hsubs & _) _].
Defined.

(** ** More on the expiry sweep *)

Lemma state_eq (st st' : State) :
  latestStockDataJSON st = latestStockDataJSON st' →
  latestStockDataObj st = latestStockDataObj st' →
  latestWeatherDataJSON st = latestWeatherDataJSON st' →
  latestWeatherDataObj st = latestWeatherDataObj st' →
  itemInfo st = itemInfo st' →
  pendingVerifications st = pendingVerifications st' →
  verifiedEmails st = verifiedEmails st' →
  subscriptions st = subscriptions st' →
  st = st'.
Proof. destruct st, st'. simpl. by intros -> -> -> -> -> -> -> ->. Qed.

(** X8. A sweep makes every earlier sweep redundant: sweeping at [t1] and
    then at a later time [t2] leaves the store that the sweep at [t2] alone
    leaves; and a sweep repeated at the same time removes and logs
    nothing. *)
Theorem sweep_absorbs_earlier_sweep (t1 t2 : Z) (st : State) :
  t1 ≤ t2 →
  (sweep t2 (sweep t1 st).1).1 = (sweep t2 st).1 ∧
  sweep t1 (sweep t1 st).1 = ((sweep t1 st).1, []).
Proof.
  intros Hle.
  assert (Habsorb : ∀ t, t1 ≤ t → (sweep t (sweep t1 st).1).1 = (sweep t st).1).
  { intros t Ht. apply state_eq; try done. apply map_eq. intros e.
    rewrite !sweep_lookup.
    destruct (pendingVerifications st !! e) as [v|]; [|done]. simpl.
    destruct (decide (expired t1 v)) as [H1|H1]; simpl.
    - rewrite decide_True; [done|]. unfold expired in *. lia.
    - done. }
  split; [by apply Habsorb|].
  assert (Hdead : filter (λ kv, expired t1 kv.2)
                    (pendingVerifications (sweep t1 st).1) = ∅).
  { apply map_empty. intros e. apply map_lookup_filter_None. right.
    intros v Hv. simpl in Hv. by apply map_lookup_filter_Some in Hv as [_ ?]. }
  unfold sweep at 1. rewrite Hdead, map_to_list_empty. f_equal.
  apply (Habsorb t1). lia.
Qed.

Lemma sweep_absorbs_earlier_sweep_witness :
  (sweep (26 * Example.hour)
     (sweep (25 * Example.hour) (Example.twoPending Example.hour)).1).1
  = (sweep (26 * Example.hour) (Example.twoPending Example.hour)).1.
Proof.
  by destruct (sweep_absorbs_earlier_sweep (25 * Example.hour)
                 (26 * Example.hour) (Example.twoPending Example.hour)
                 ltac:(by vm_compute)) as [Habsorb _].
Defined.

(** X9. The sweep logs one line for each entry it removes and does nothing
    else: the e-mails logged are exactly those whose entry was older than 24
    hours, and every entry of the old map is either logged or kept. *)
Theorem sweep_logs_each_removed_entry (now : Z) (st : State) :
  (∀ effect, effect ∈ (sweep now st).2 → ∃ e, effect = Log (LogExpired e)) ∧
  (∀ e, Log (LogExpired e) ∈ (sweep now st).2
        ↔ ∃ v, pendingVerifications st !! e = Some v ∧
               now - timestamp v > expirationTime) ∧
  (length (sweep now st).2 + size (pendingVerifications (sweep now st).1)
   = size (pendingVerifications st))%nat.
Proof.
  split_and!.
  - intros effect ([e v] & -> & _)%list_elem_of_fmap. by exists e.
  - intros e. simpl. rewrite list_elem_of_fmap. split.
    + intros ([e' v] & [= <-] & Hin). apply elem_of_map_to_list in Hin.
      apply map_lookup_filter_Some in Hin as [Hv Hexp]. by exists v.
    + intros (v & Hv & Hexp). exists (e, v). split; [done|].
      apply elem_of_map_to_list. by apply map_lookup_filter_Some.
  - simpl. rewrite length_fmap, length_map_to_list.
    rewrite <- map_size_disj_union by apply map_disjoint_filter_complement.
    by rewrite map_filter_union_complement.
Qed.

Lemma sweep_logs_each_removed_entry_witness :
  (sweep (25 * Example.hour) (Example.twoPending Example.hour)).2
  = [Log (LogExpired "a@x.com")] ∧
  size (pendingVerifications
          (sweep (25 * Example.hour) (Example.twoPending Example.hour)).1)
  = 1%nat.
Proof.
  destruct (sweep_logs_each_removed_entry (25 * Example.hour)
              (Example.twoPending Example.hour)) as (_ & _ & Hsize).
  assert (Hlog : (sweep (25 * Example.hour) (Example.twoPending Example.hour)).2
                 = [Log (LogExpired "a@x.com")]) by (by vm_compute).
  assert (Hold : size (pendingVerifications (Example.twoPending Example.hour))
                 = 2%nat) by (by vm_compute).
  split; [done|]. rewrite Hlog, Hold in Hsize. cbn [length] in Hsize. lia.
Defined.

(** ** From the verification link to the first notification *)

Lemma truthy_nonempty (s : string) : s ≠ "" → truthy (Some s) = Some s.
Proof. intros Hs. by apply truthy_Some. Qed.

Section Lifecycle.

Variable trim : string → string.
Variable stringifyStock : StockData → string.

Lemma requestVerification_accepted (st : State) (email : option string)
    (e tok : string) (T : Z) (relay : RelayOutcome) :
  truthy (trim <$> email) = Some e →
  subscriptions st !! e = None →
  requestVerification trim email tok T relay st
  = (set_pendingVerifications
       (<[e := {| token := tok; timestamp := T |}]> (pendingVerifications st)) st,
     Log (LogRequestProcessing e)
       :: verificationRelay
            {| mail_to := e; mail_subject := SubjVerify;
               mail_html := VerificationBody e tok |} relay,
     Json 200 true "Verification email sent. Please check your inbox.").
Proof.
  intros He Hsub. unfold requestVerification. rewrite He.
  rewrite bool_decide_eq_false_2; [done|]. rewrite Hsub. by intros [? ?].
Qed.

Lemma verify_accepted (st : State) (e tok : string) (v : PendingVerification)
    (now : Z) :
  e ≠ "" → tok ≠ "" →
  pendingVerifications st !! e = Some v → token v = tok →
  verify (Some e) (Some tok) now st
  = (set_verifiedEmails
       (<[e := {| verified := true; verified_timestamp := now |}]>
          (verifiedEmails st))
       (set_pendingVerifications (delete e (pendingVerifications st)) st),
     [Log (LogVerified e)], RedirectVerified e).
Proof.
  intros He Htok Hv <-. unfold verify.
  rewrite !truthy_nonempty, Hv by done. by rewrite String.eqb_refl.
Qed.

(** X10. The whole path of a new subscriber.  The mail of an accepted
    verification request carries the trimmed e-mail and the fresh token;
    following that link verifies the e-mail and consumes the token; the
    subscription is then accepted and stored; the next changed stock
    snapshot brings this subscriber exactly one mail if a watched item is in
    stock and none otherwise, and the same snapshot polled again brings no
    mail to anybody. *)
Theorem verification_link_leads_to_notification
    (st : State) (email : option string) (e tok : string) (T T' : Z)
    (relay : RelayOutcome) (field : ItemsField) :
  truthy (trim <$> email) = Some e →
  subscriptions st !! e = None →
  tok ≠ "" →
  itemsOf field ≠ [] →
  let requested := requestVerification trim email tok T relay st in
  let followed := verify (Some e) (Some tok) T' requested.1.1 in
  let joined := subscribe trim email field followed.1.1 in
  (∀ m, m ∈ mailsOf requested.1.2 →
        m = {| mail_to := e; mail_subject := SubjVerify;
               mail_html := VerificationBody e tok |}) ∧
  followed.2 = RedirectVerified e ∧
  joined.2 = Json 200 true "Subscription successful!" ∧
  subscriptions joined.1.1 !! e = Some (list_to_set (itemsOf field)) ∧
  pendingVerifications joined.1.1 !! e = None ∧
  ∀ data info info',
    latestStockDataJSON st ≠ Some (stringifyStock data) →
    let first := pollStockAPI stringifyStock (FetchOk data) info joined.1.1 in
    mailsTo e (mailsOf first.2)
    = (if bool_decide (inStockItems (list_to_set (itemsOf field)) data ≠ [])
       then 1%nat else 0%nat) ∧
    mailsOf (pollStockAPI stringifyStock (FetchOk data) info' first.1).2 = [].
Proof.
  intros He Hsub Htok Hitems requested followed joined.
  assert (He' : e ≠ "") by (by apply truthy_Some in He as [_ ?]).
  assert (Hreq : requested = _) by apply (requestVerification_accepted st email e tok T relay He Hsub).
  assert (Hfol : followed = _)
    by (subst followed; rewrite Hreq;
        apply (verify_accepted _ e tok {| token := tok; timestamp := T |});
        [done|done|apply lookup_insert_eq|done]).
  assert (Hjoin : joined = _)
    by (subst joined; rewrite Hfol;
        apply (subscribe_accepted trim _ email field e He Hitems);
        simpl; rewrite lookup_insert_eq; by eexists).
  split_and!.
  - rewrite Hreq. simpl. intros m. destruct relay; simpl.
    + by intros ?%elem_of_nil.
    + by intros ->%list_elem_of_singleton.
    + by intros ->%list_elem_of_singleton.
  - by rewrite Hfol.
  - by rewrite Hjoin.
  - rewrite Hjoin. apply lookup_insert_eq.
  - rewrite Hjoin. apply lookup_delete_eq.
  - intros data info info' Hch first.
    assert (Hch' : latestStockDataJSON joined.1.1 ≠ Some (stringifyStock data))
      by (by rewrite Hjoin).
    destruct (pollStockAPI_changed stringifyStock joined.1.1 data info Hch')
      as (st2 & fetched & Hfirst & Hfetched & Hsubs & Hjson & _).
    subst first. rewrite Hfirst. cbn [fst snd]. split.
    + assert (Hmails : mailsOf (Log LogStockChanged :: fetched
                                  ++ stockFanout st2 data)
                       = mailsOf (stockFanout st2 data)).
      { unfold mailsOf in *. cbn [omap list_omap]. by rewrite omap_app, Hfetched. }
      rewrite Hmails, stockFanout_count, Hsubs, Hjoin. simpl.
      by rewrite lookup_insert_eq.
    + unfold pollStockAPI. rewrite Hjson.
      by rewrite (proj2 (hasDataChanged_false _ _) eq_refl).
Qed.

(** X11. Asking again for a verification rotates the token: the entry
    holds the new token and the new time, the earlier token is turned down
    without effect, the new one is accepted, and the 24 hours count from the
    second request. *)
Theorem requestVerification_rotates_token
    (st : State) (email : option string) (e tok1 tok2 : string) (T1 T2 now : Z)
    (relay1 relay2 : RelayOutcome) :
  truthy (trim <$> email) = Some e →
  subscriptions st !! e = None →
  tok2 ≠ "" →
  let st1 := (requestVerification trim email tok1 T1 relay1 st).1.1 in
  let st2 := (requestVerification trim email tok2 T2 relay2 st1).1.1 in
  let issued := {| token := tok2; timestamp := T2 |} in
  pendingVerifications st2 !! e = Some issued ∧
  (tok1 ≠ tok2 →
     verifySucceeded (verify (Some e) (Some tok1) now st2).2 = false ∧
     (verify (Some e) (Some tok1) now st2).1.1 = st2) ∧
  (verify (Some e) (Some tok2) now st2).2 = RedirectVerified e ∧
  (∀ t, t - T2 ≤ expirationTime →
        pendingVerifications (sweep t st2).1 !! e = Some issued).
Proof.
  intros He Hsub Htok2 st1 st2 issued.
  assert (He' : e ≠ "") by (by apply truthy_Some in He as [_ ?]).
  assert (Hst1 : st1 = _)
    by (subst st1; by rewrite (requestVerification_accepted st email e tok1 T1)).
  assert (Hst2 : st2 = _)
    by (subst st2;
        rewrite (requestVerification_accepted st1 email e tok2 T2);
        [done|done|by rewrite Hst1]).
  assert (Hissued : pendingVerifications st2 !! e = Some issued)
    by (rewrite Hst2; apply lookup_insert_eq).
  split_and!; [done| | |].
  - intros Hne.
    assert (Hfail : verifySucceeded (verify (Some e) (Some tok1) now st2).2 = false).
    { unfold verify. rewrite truthy_nonempty by done.
      destruct (truthy (Some tok1)) as [t|] eqn:Ht; [|done].
      apply truthy_Some in Ht as [[= <-] _]. rewrite Hissued. simpl.
      destruct (String.eqb_spec tok2 tok1) as [Heq|]; [by symmetry in Heq|done]. }
    split; [done|]. by apply verify_failure.
  - by rewrite (verify_accepted st2 e tok2 issued).
  - intros t Ht. rewrite sweep_lookup, Hissued. simpl.
    rewrite decide_False; [done|]. unfold expired. simpl. lia.
Qed.

(** X12. Unsubscribing also withdraws the verification: afterwards the
    e-mail is reported as not verified, a new subscription is turned down
    with the store untouched, and a verification can be requested again. *)
Theorem unsub_revokes_verification
    (st : State) (email : option string) (e tok : string) (now : Z)
    (relay : RelayOutcome) (field : ItemsField) :
  truthy (trim <$> email) = Some e →
  is_Some (subscriptions st !! e) →
  itemsOf field ≠ [] →
  let gone := (unsub trim email st).1.1 in
  verifiedEmails gone !! e = None ∧
  (checkVerification trim email gone).2 = JsonVerified 200 false None ∧
  subscribe trim email field gone
  = (gone, [Log (LogSubscribeNotVerified e)], Json 400 false "Email not verified") ∧
  (requestVerification trim email tok now relay gone).2
  = Json 200 true "Verification email sent. Please check your inbox.".
Proof.
  intros He Hsub Hitems gone.
  assert (Hgone : gone = set_verifiedEmails (delete e (verifiedEmails st))
                           (set_subscriptions (delete e (subscriptions st)) st)).
  { subst gone. unfold unsub. rewrite He. by rewrite bool_decide_eq_true_2. }
  assert (Hver : verifiedEmails gone !! e = None)
    by (rewrite Hgone; apply lookup_delete_eq).
  assert (Hsubs : subscriptions gone !! e = None)
    by (rewrite Hgone; apply lookup_delete_eq).
  split_and!; [done| | |].
  - unfold checkVerification. rewrite He. simpl.
    rewrite bool_decide_eq_false_2; [done|]. rewrite Hver. by intros [? ?].
  - unfold subscribe. rewrite He.
    rewrite bool_decide_eq_false_2 by (by destruct (itemsOf field)).
    rewrite bool_decide_eq_false_2; [done|]. rewrite Hver. by intros [? ?].
  - by rewrite (requestVerification_accepted gone email e tok now relay).
Qed.

End Lifecycle.

Lemma verification_link_leads_to_notification_witness :
  let requested :=
    requestVerification Example.trim (Some " a@x.com ") "c0ffee"
      Example.minute (Delivered "250 OK") initialState in
  let followed :=
    verify (Some "a@x.com") (Some "c0ffee") (2 * Example.minute) requested.1.1 in
  let joined :=
    subscribe Example.trim (Some " a@x.com ") (ItemsArray ["A"; "B"])
      followed.1.1 in
  let first :=
    pollStockAPI Example.stringifyStock (FetchOk Example.stockABC)
      (FetchError "offline") joined.1.1 in
  followed.2 = RedirectVerified "a@x.com" ∧
  mailsTo "a@x.com" (mailsOf first.2) = 1%nat ∧
  mailsOf (pollStockAPI Example.stringifyStock (FetchOk Example.stockABC)
             (FetchError "offline") first.1).2 = [].
Proof.
  intros requested followed joined first.
  pose proof (verification_link_leads_to_notification Example.trim
                Example.stringifyStock initialState (Some " a@x.com ")
                "a@x.com" "c0ffee" Example.minute (2 * Example.minute)
                (Delivered "250 OK") (ItemsArray ["A"; "B"])
                ltac:(by vm_compute) ltac:(done) ltac:(done) ltac:(done))
    as (_ & Hfollowed & _ & _ & _ & Hpoll).
  destruct (Hpoll Example.stockABC (FetchError "offline") (FetchError "offline")
              ltac:(done)) as [Hfirst Hsecond].
  split_and!; [exact Hfollowed| |exact Hsecond].
  subst first joined followed requested. rewrite Hfirst. by vm_compute.
Defined.

Lemma requestVerification_rotates_token_witness :
  let st1 :=
    (requestVerification Example.trim (Some "a@x.com") "c0ffee" 0
       (Delivered "250 OK") initialState).1.1 in
  let st2 :=
    (requestVerification Example.trim (Some "a@x.com") "beef" Example.hour
       (SendMailError "421") st1).1.1 in
  verifySucceeded
    (verify (Some "a@x.com") (Some "c0ffee") (2 * Example.hour) st2).2 = false ∧
  (verify (Some "a@x.com") (Some "beef") (2 * Example.hour) st2).2
  = RedirectVerified "a@x.com".
Proof.
  intros st1 st2.
  pose proof (requestVerification_rotates_token Example.trim initialState
                (Some "a@x.com") "a@x.com" "c0ffee" "beef" 0 Example.hour
                (2 * Example.hour) (Delivered "250 OK") (SendMailError "421")
                ltac:(by vm_compute) ltac:(done) ltac:(done))
    as (_ & Hold & Hnew & _).
  split; [|exact Hnew]. by apply Hold.
Defined.

Lemma unsub_revokes_verification_witness :
  let gone := (unsub Example.trim (Some "a@x.com") Example.watchingAB).1.1 in
  (subscribe Example.trim (Some "a@x.com") (ItemsArray ["A"]) gone).2
  = Json 400 false "Email not verified" ∧
  (checkVerification Example.trim (Some "a@x.com") gone).2
  = JsonVerified 200 false None.
Proof.
  intros gone.
  pose proof (unsub_revokes_verification Example.trim Example.watchingAB
                (Some "a@x.com") "a@x.com" "beef" Example.hour
                (Delivered "250 OK") (ItemsArray ["A"])
                ltac:(by vm_compute) ltac:(vm_compute; by eexists) ltac:(done))
    as (_ & Hcheck & Hsub & _).
  split; [|exact Hcheck]. fold gone in Hsub. by rewrite Hsub.
Defined.

(** ** What a mail shows *)

(** X13. A missing catalogue entry only degrades the display of a stock
    row: with no entry for the item the icon is the address derived from
    its [item_id]; with an entry, the first one for that [item_id] supplies
    the icon, unless it has none. *)
Theorem iconUrl_falls_back_to_item_id (info : list ItemInfo) (item : StockItem)
    (id : string) :
  item_id item = Some id →
  let derived := "https://image.joshlei.com/" +:+ id +:+ ".png" in
  ((∀ i, i ∈ info → info_item_id i ≠ id) → iconUrl info item = derived) ∧
  (∀ before entry after,
     info = before ++ entry :: after →
     (∀ i, i ∈ before → info_item_id i ≠ id) →
     info_item_id entry = id →
     iconUrl info item = or_else (info_icon entry) derived).
Proof.
  intros Hid derived. unfold iconUrl. rewrite Hid. simpl. fold derived. split.
  - intros Hnone.
    assert (Hfind : List.find (λ i, bool_decide (Some (info_item_id i) = Some id))
                      info = None).
    { induction info as [|i info IH]; [done|]. simpl.
      rewrite bool_decide_eq_false_2.
      - apply IH. intros j Hj. apply Hnone. by right.
      - intros [= Heq]. by apply (Hnone i); [left|]. }
    by rewrite Hfind.
  - intros before entry after -> Hbefore Hentry.
    assert (Hfind : List.find (λ i, bool_decide (Some (info_item_id i) = Some id))
                      (before ++ entry :: after) = Some entry).
    { induction before as [|i before IH]; simpl.
      - by rewrite bool_decide_eq_true_2 by (by rewrite Hentry).
      - rewrite bool_decide_eq_false_2.
        + apply IH. intros j Hj. apply Hbefore. by right.
        + intros [= Heq]. by apply (Hbefore i); [left|]. }
    by rewrite Hfind.
Qed.

Lemma iconUrl_falls_back_to_item_id_witness :
  iconUrl [] (Example.item "A" 3) = "https://image.joshlei.com/A.png" ∧
  iconUrl (itemInfo Example.polled) (Example.item "A" 3)
  = "https://cdn.example/a.png".
Proof.
  destruct (iconUrl_falls_back_to_item_id [] (Example.item "A" 3) "A" eq_refl)
    as [Hnone _].
  destruct (iconUrl_falls_back_to_item_id (itemInfo Example.polled)
              (Example.item "A" 3) "A" eq_refl) as [_ Hentry].
  split.
  - apply Hnone. by intros i ?%elem_of_nil.
  - rewrite (Hentry [] {| info_item_id := "A";
                          info_icon := Some "https://cdn.example/a.png" |} []);
      [done|by vm_compute|by intros i ?%elem_of_nil|done].
Defined.

(** Half a unit at most separates [n / d] from its rounding. *)
Lemma nearestEven_bounds (n d : Z) :
  0 < d →
  d * (2 * nearestEven n d - 1) ≤ 2 * n ≤ d * (2 * nearestEven n d + 1).
Proof.
  intros Hd. unfold nearestEven.
  pose proof (Z.div_mod n d ltac:(lia)) as Hn.
  pose proof (Z.mod_pos_bound n d Hd) as Hr.
  revert Hn Hr. generalize (n `div` d) as q. generalize (n `mod` d) as r.
  intros r q Hn Hr.
  repeat case_bool_decide; [nia|nia|destruct (Z.even q); nia].
Qed.

Lemma binade_bounds (n d : Z) :
  Z.log2 n - Z.log2 d - 1 ≤ binade n d ≤ Z.log2 n - Z.log2 d.
Proof.
  unfold binade, scaled. case_bool_decide; lia.
Qed.

(** An integer of at most 53 bits is a number of the format. *)
Lemma toNumber_exact (z : Z) :
  z ≠ 0 → Z.abs z < 2 ^ 53 →
  ∃ s, 0 ≤ s ≤ 52 ∧ toNumber z = Finite (z * 2 ^ s) (- s).
Proof.
  intros Hz Hbound.
  assert (Hpos : 0 < Z.abs z) by lia.
  pose proof (Z.log2_spec (Z.abs z) Hpos) as [Hlow _].
  pose proof (Z.log2_nonneg (Z.abs z)) as Hl0.
  assert (Hl : Z.log2 (Z.abs z) < 53) by (by apply Z.log2_lt_pow2).
  exists (52 - Z.log2 (Z.abs z)). split; [lia|].
  unfold toNumber, round64. rewrite bool_decide_eq_false_2 by lia.
  assert (Hb : binade (Z.abs z) 1 = Z.log2 (Z.abs z)).
  { unfold binade, scaled. change (Z.log2 1) with 0. rewrite Z.sub_0_r.
    rewrite (Z.max_l 0 (- _)), (Z.max_r 0) by lia.
    rewrite bool_decide_eq_true_2; [done|]. change (2 ^ 0) with 1. lia. }
  rewrite Hb. rewrite (Z.max_l _ (-1074)) by lia. unfold scaled.
  rewrite (Z.max_r 0 (- _)), (Z.max_l 0) by lia.
  change (2 ^ 0) with 1. rewrite !Z.mul_1_l.
  assert (Hm : ∀ a, nearestEven a 1 = a).
  { intros a. unfold nearestEven. rewrite Z.mod_1_r, Z.div_1_r.
    by rewrite bool_decide_eq_true_2 by lia. }
  rewrite Hm, Z.mul_1_r.
  replace (- (Z.log2 (Z.abs z) - 52)) with (52 - Z.log2 (Z.abs z)) by lia.
  assert (Hsmall : Z.abs z * 2 ^ (52 - Z.log2 (Z.abs z)) < 2 ^ 1024).
  { pose proof (Z.log2_spec (Z.abs z) Hpos) as [_ Hup].
    apply Z.lt_trans with (2 ^ 53); [|done].
    replace 53 with (Z.succ (Z.log2 (Z.abs z)) + (52 - Z.log2 (Z.abs z))) by lia.
    rewrite Z.pow_add_r by lia.
    apply Z.mul_lt_mono_pos_r; [apply Z.pow_pos_nonneg; lia|done]. }
  rewrite bool_decide_eq_false_2 by lia.
  f_equal; [|lia]. case_bool_decide; lia.
Qed.

(** Rounding to a grid of step [1 / K], [K ≥ 32], does not carry a multiple
    of [1 / 60] across an integer. *)
Lemma floor_of_rounded (x c K m : Z) :
  0 ≤ x → 0 < c → 32 ≤ K →
  c * 60 * (2 * m - 1) ≤ 2 * (x * c * K) ≤ c * 60 * (2 * m + 1) →
  m `div` K = x `div` 60 ∧ (- m) `div` K = (- x) `div` 60.
Proof.
  intros Hx Hc HK [Hlow Hup].
  assert (Hlow' : 60 * (2 * m - 1) ≤ 2 * (x * K)).
  { apply (Z.mul_le_mono_pos_l _ _ c); [done|]. lia. }
  assert (Hup' : 2 * (x * K) ≤ 60 * (2 * m + 1)).
  { apply (Z.mul_le_mono_pos_l _ _ c); [done|]. lia. }
  clear Hlow Hup.
  pose proof (Z.div_mod x 60 ltac:(done)) as Hdiv.
  pose proof (Z.mod_pos_bound x 60 ltac:(done)) as Hmod.
  revert Hdiv Hmod. generalize (x `div` 60) as q. generalize (x `mod` 60) as r.
  intros r q -> Hr.
  assert (HrK : 0 ≤ r * K ≤ 59 * K)
    by (split; [apply Z.mul_nonneg_nonneg; lia
               |apply Z.mul_le_mono_nonneg_r; lia]).
  assert (HrK' : 0 < r → K ≤ r * K)
    by (intros ?; rewrite <-(Z.mul_1_l K) at 1;
        apply Z.mul_le_mono_nonneg_r; lia).
  assert (HrK0 : r = 0 → r * K = 0) by (by intros ->).
  assert (Hm : q * K ≤ m < q * K + K) by lia.
  assert (Hm0 : r = 0 → m = q * K) by lia.
  assert (Hm1 : 0 < r → q * K < m) by lia.
  split.
  - symmetry. apply (Z.div_unique _ _ _ (m - q * K)); lia.
  - destruct (decide (r = 0)) as [->|Hr0].
    + rewrite Hm0 by done. rewrite Z.add_0_r.
      replace (- (q * K)) with (- q * K) by lia.
      replace (- (60 * q)) with (- q * 60) by lia.
      rewrite !Z.div_mul by lia. done.
    + transitivity (- q - 1).
      * symmetry. apply (Z.div_unique _ _ _ (q * K + K - m)); lia.
      * apply (Z.div_unique _ _ _ (60 - r)); lia.
Qed.

(** For an integer of at most 53 bits the quotient by 60, rounded by the
    division and cut by [Math.floor], is the integer quotient. *)
Lemma floor_divide_exact (z : Z) :
  z ≠ 0 → Z.abs z < 2 ^ 53 →
  floor (divide (toNumber z) 60) = Finite (z `div` 60) 0.
Proof.
  intros Hz Hbound.
  destruct (toNumber_exact z Hz Hbound) as (s & Hs & ->).
  assert (Hpos : 0 < Z.abs z) by lia.
  assert (H2s : 0 < 2 ^ s) by (apply Z.pow_pos_nonneg; lia).
  pose proof (Z.log2_nonneg (Z.abs z)) as Hl0.
  assert (Hl : Z.log2 (Z.abs z) < 53) by (by apply Z.log2_lt_pow2).
  unfold divide, scaled. rewrite !Z.opp_involutive.
  rewrite (Z.max_l 0 (- s)), (Z.max_r 0 s) by lia.
  change (2 ^ 0) with 1. rewrite Z.mul_1_r.
  rewrite Z.abs_mul, (Z.abs_eq (2 ^ s)) by lia.
  unfold round64. rewrite bool_decide_eq_false_2 by lia.
  pose proof (binade_bounds (Z.abs z * 2 ^ s) (60 * 2 ^ s)) as Hb.
  rewrite !Z.log2_mul_pow2 in Hb by lia. change (Z.log2 60) with 5 in Hb.
  revert Hb. generalize (binade (Z.abs z * 2 ^ s) (60 * 2 ^ s)) as b.
  intros b Hb. rewrite (Z.max_l _ (-1074)) by lia.
  unfold scaled. rewrite (Z.max_r 0 (- _)), (Z.max_l 0 (b - 52)) by lia.
  change (2 ^ 0) with 1. rewrite !Z.mul_1_r.
  replace (- (b - 52)) with (52 - b) by lia.
  assert (HK : 32 ≤ 2 ^ (52 - b))
    by (change 32 with (2 ^ 5); apply Z.pow_le_mono_r; lia).
  assert (HK' : 2 ^ (52 - b) ≤ 2 ^ 58) by (apply Z.pow_le_mono_r; lia).
  pose proof (nearestEven_bounds (Z.abs z * 2 ^ s * 2 ^ (52 - b)) (60 * 2 ^ s)
                ltac:(lia)) as Hm.
  revert Hm.
  generalize (nearestEven (Z.abs z * 2 ^ s * 2 ^ (52 - b)) (60 * 2 ^ s)) as m.
  intros m Hm.
  destruct (floor_of_rounded (Z.abs z) (2 ^ s) (2 ^ (52 - b)) m)
    as [Hplus Hminus]; [lia|done|done| |].
  { split; [etrans; [|apply Hm]|etrans; [apply Hm|]]; lia. }
  assert (Hmsmall : m < 2 ^ 1024).
  { assert (Hq : Z.abs z `div` 60 < 2 ^ 53)
      by (apply Z.div_lt_upper_bound; lia).
    assert (m < (Z.abs z `div` 60 + 1) * 2 ^ (52 - b)).
    { pose proof (Z.div_mod m (2 ^ (52 - b)) ltac:(lia)).
      pose proof (Z.mod_pos_bound m (2 ^ (52 - b)) ltac:(lia)).
      rewrite Hplus in *. lia. }
    assert ((Z.abs z `div` 60 + 1) * 2 ^ (52 - b) ≤ 2 ^ 53 * 2 ^ 58)
      by (apply Z.mul_le_mono_nonneg; [apply Z.add_nonneg_nonneg;
            [apply Z.div_pos|]; lia|lia|lia|done]).
    assert (2 ^ 53 * 2 ^ 58 < 2 ^ 1024) by done.
    lia. }
  rewrite bool_decide_eq_false_2 by lia.
  unfold floor. rewrite Z.max_l, Z.max_r by lia.
  change (2 ^ 0) with 1. rewrite Z.mul_1_r. f_equal.
  replace (- (b - 52)) with (52 - b) by lia.
  case_bool_decide as Hneg.
  - assert (z * 2 ^ s < 0 → z < 0) by nia.
    rewrite Hminus. f_equal. lia.
  - assert (¬ z * 2 ^ s < 0 → 0 < z) by nia.
    rewrite Hplus. f_equal. lia.
Qed.

(** X14. For a duration of at most 53 bits, which the number format holds
    exactly, the duration shown in a weather mail is the number of whole
    minutes of the event, rounded down; a zero duration is shown as
    unknown, and an event shorter than a minute as 0 minutes. *)
Theorem buildWeatherHtmlEmail_whole_minutes (weatherEvent : WeatherEvent)
    (discordInvite : option string) (recipientEmail : string) :
  - 2 ^ 53 < duration weatherEvent < 2 ^ 53 →
  ∃ title shown invite,
    buildWeatherHtmlEmail weatherEvent discordInvite recipientEmail
    = WeatherBody title shown invite recipientEmail ∧
    (duration weatherEvent = 0 → shown = None) ∧
    (duration weatherEvent ≠ 0 →
       ∃ m, shown = Some (Finite m 0) ∧
            60 * m ≤ duration weatherEvent < 60 * m + 60) ∧
    (0 < duration weatherEvent < 60 → shown = Some (Finite 0 0)).
Proof.
  intros Hbound. unfold buildWeatherHtmlEmail. eexists _, _, _.
  split; [done|].
  destruct (decide (duration weatherEvent = 0)) as [Hz|Hnz].
  - rewrite Hz. split_and!; [done|done|lia].
  - assert (Habs : Z.abs (duration weatherEvent) < 2 ^ 53) by lia.
    destruct (toNumber_exact _ Hnz Habs) as (s & Hs & Hnum).
    assert (Htruthy : isZero (toNumber (duration weatherEvent)) = false).
    { rewrite Hnum. simpl. apply bool_decide_eq_false_2.
      assert (0 < 2 ^ s) by (apply Z.pow_pos_nonneg; lia). nia. }
    cbv zeta. rewrite Htruthy, floor_divide_exact by done.
    split_and!; [done| |].
    + intros _. eexists. split; [done|].
      pose proof (Z.div_mod (duration weatherEvent) 60 ltac:(done)).
      pose proof (Z.mod_pos_bound (duration weatherEvent) 60 ltac:(done)). lia.
    + intros Hshort. do 2 f_equal. apply Z.div_small. lia.
Qed.

Lemma buildWeatherHtmlEmail_whole_minutes_witness :
  ∃ title invite,
    buildWeatherHtmlEmail (Example.event "Rain" true) None "a@x.com"
    = WeatherBody title (Some (Finite 3 0)) invite "a@x.com".
Proof.
  destruct (buildWeatherHtmlEmail_whole_minutes (Example.event "Rain" true)
              None "a@x.com" ltac:(by vm_compute))
    as (title & shown & invite & Heq & _ & Hnz & _).
  destruct (Hnz ltac:(done)) as (m & -> & Hm).
  exists title, invite. rewrite Heq. do 3 f_equal.
  change (duration (Example.event "Rain" true)) with 180 in Hm. lia.
Defined.

(** Beyond 53 bits the division rounds: a duration of 67553994410557496
    seconds is shown as 1125899906842625 minutes, one more than its whole
    minutes. *)
Lemma buildWeatherHtmlEmail_rounds_long_durations :
  let weatherEvent :=
    {| weather_id := "Rain"; weather_name := None; active := true;
       duration := 67553994410557496 |} in
  buildWeatherHtmlEmail weatherEvent None "a@x.com"
  = WeatherBody "Rain" (Some (Finite 1125899906842625 0)) None "a@x.com" ∧
  duration weatherEvent `div` 60 = 1125899906842624.
Proof. by vm_compute. Qed.

(** * Further properties of the WebSocket variant *)

(** ** The e-mail pattern *)

Lemma matches_never (w : list Ascii.ascii) : ¬ matches Never w.
Proof. inversion 1. Qed.

Lemma matches_eps_iff (w : list Ascii.ascii) : matches Eps w ↔ w = [].
Proof. split; [by inversion 1|intros ->; constructor]. Qed.

Lemma matches_class_iff (p : Ascii.ascii → bool) (w : list Ascii.ascii) :
  matches (Class p) w ↔ ∃ c, w = [c] ∧ p c = true.
Proof.
  split; [inversion 1; subst; eauto|]. intros (c & -> & Hc). by constructor.
Qed.

Lemma matches_cat_iff (r1 r2 : Regex) (w : list Ascii.ascii) :
  matches (Cat r1 r2) w ↔ ∃ u v, w = u ++ v ∧ matches r1 u ∧ matches r2 v.
Proof.
  split; [inversion 1; subst; eauto|]. intros (u & v & -> & Hu & Hv).
  by constructor.
Qed.

Lemma matches_alt_iff (r1 r2 : Regex) (w : list Ascii.ascii) :
  matches (Alt r1 r2) w ↔ matches r1 w ∨ matches r2 w.
Proof.
  split; [inversion 1; subst; auto|].
  intros [H|H]; [by apply matches_alt_l|by apply matches_alt_r].
Qed.

Lemma nullable_matches (r : Regex) : nullable r = true ↔ matches r [].
Proof.
  induction r as [| |p|r1 IH1 r2 IH2|r1 IH1 r2 IH2|r IH]; simpl.
  - split; [done|]. by intros ?%matches_never.
  - by rewrite matches_eps_iff.
  - rewrite matches_class_iff. split; [done|]. by intros (c & ? & _).
  - rewrite andb_true_iff, IH1, IH2, matches_cat_iff. split.
    + intros [H1 H2]. by exists [], [].
    + intros (u & v & Heq & Hu & Hv). symmetry in Heq.
      by apply app_eq_nil in Heq as [-> ->].
  - by rewrite orb_true_iff, IH1, IH2, matches_alt_iff.
  - split; [constructor|done].
Qed.

(** A non-empty match of [r*] starts with a non-empty match of [r]. *)
Lemma matches_star_cons (r : Regex) (c : Ascii.ascii) (w : list Ascii.ascii) :
  matches (Star r) (c :: w) →
  ∃ u v, w = u ++ v ∧ matches r (c :: u) ∧ matches (Star r) v.
Proof.
  intros H. remember (Star r) as r' eqn:Hr. remember (c :: w) as cw eqn:Hcw.
  revert w Hcw.
  induction H as [| | | | | |r0 u v Hu _ Hv IH]; intros w Hcw; try done.
  injection Hr as ->. destruct u as [|c' u].
  - simpl in Hcw. by apply IH.
  - injection Hcw as -> <-. by exists u, v.
Qed.

Lemma derive_matches (r : Regex) (c : Ascii.ascii) (w : list Ascii.ascii) :
  matches (derive c r) w ↔ matches r (c :: w).
Proof.
  revert w. induction r as [| |p|r1 IH1 r2 IH2|r1 IH1 r2 IH2|r IH]; intros w; simpl.
  - split; by intros ?%matches_never.
  - split; [by intros ?%matches_never|by intros ?%matches_eps_iff].
  - rewrite matches_class_iff. destruct (p c) eqn:Hp.
    + rewrite matches_eps_iff. split; [intros ->; eauto|].
      by intros (c' & [= -> ->] & _).
    + split; [by intros ?%matches_never|]. intros (c' & [= -> ->] & ?). congruence.
  - assert (Hcat : matches (Cat (derive c r1) r2) w
                   ↔ ∃ u v, w = u ++ v ∧ matches r1 (c :: u) ∧ matches r2 v).
    { rewrite matches_cat_iff. by setoid_rewrite IH1. }
    rewrite (matches_cat_iff r1 r2).
    destruct (nullable r1) eqn:Hnull.
    + rewrite matches_alt_iff, Hcat, IH2. split.
      * intros [(u & v & -> & Hu & Hv)|Hw].
        -- by exists (c :: u), v.
        -- apply nullable_matches in Hnull. by exists [], (c :: w).
      * intros (u & v & Heq & Hu & Hv). destruct u as [|c' u].
        -- simpl in Heq. subst v. by right.
        -- injection Heq as <- ->. left. by exists u, v.
    + rewrite Hcat. split.
      * intros (u & v & -> & Hu & Hv). by exists (c :: u), v.
      * intros (u & v & Heq & Hu & Hv). destruct u as [|c' u].
        -- apply nullable_matches in Hu. congruence.
        -- injection Heq as <- ->. by exists u, v.
  - by rewrite !matches_alt_iff, IH1, IH2.
  - rewrite matches_cat_iff. split.
    + intros (u & v & -> & Hu & Hv).
      apply (matches_star_app r (c :: u) v); [by apply IH|done].
    + intros (u & v & -> & Hu & Hv)%matches_star_cons.
      exists u, v. split; [done|]. split; [by apply IH|done].
Qed.

(** The test by derivatives decides the denotation. *)
Lemma accepts_matches (r : Regex) (w : list Ascii.ascii) :
  accepts r w = true ↔ matches r w.
Proof.
  revert r. induction w as [|c w IH]; intros r; simpl.
  - apply nullable_matches.
  - by rewrite IH, derive_matches.
Qed.

Lemma matches_star_class (p : Ascii.ascii → bool) (w : list Ascii.ascii) :
  matches (Star (Class p)) w ↔ Forall (λ c, p c = true) w.
Proof.
  split.
  - intros H. remember (Star (Class p)) as r eqn:Hr.
    induction H as [| | | | | |r0 u v Hu _ Hv IH]; try done.
    injection Hr as ->. apply matches_class_iff in Hu as (c & -> & Hc).
    constructor; [done|by apply IH].
  - induction 1 as [|c w Hc _ IH]; [constructor|].
    apply (matches_star_app (Class p) [c] w); [by constructor|done].
Qed.

Lemma matches_plus_class (p : Ascii.ascii → bool) (w : list Ascii.ascii) :
  matches (Plus (Class p)) w ↔ w ≠ [] ∧ Forall (λ c, p c = true) w.
Proof.
  unfold Plus. rewrite matches_cat_iff. split.
  - intros (u & v & -> & (c & -> & Hc)%matches_class_iff & Hv%matches_star_class).
    split; [done|by constructor].
  - intros [Hne Hall]. destruct w as [|c w]; [done|].
    apply Forall_cons in Hall as [Hc Hall]. exists [c], w.
    split_and!; [done|by constructor|by apply matches_star_class].
Qed.

Lemma plain_char (space : Ascii.ascii → bool) (c : Ascii.ascii) :
  negb (space c) && negb (Ascii.eqb c "@"%char) = true
  ↔ space c = false ∧ c ≠ "@"%char.
Proof.
  rewrite andb_true_iff, !negb_true_iff.
  destruct (Ascii.eqb_spec c "@"%char) as [->|Hne].
  - split; [by intros [_ ?]|by intros [_ ?]].
  - split; intros [? _]; done.
Qed.

(** X15. The addresses the variant accepts are exactly those made of a
    local part, an [@], and a domain with a dot inside it, each of the three
    pieces non-empty and free of white space and of [@]; so an accepted
    address has no white space, exactly one [@], and a dot after it. *)
Theorem emailPattern_accepts_local_at_domain
    (space : Ascii.ascii → bool) (s : string) :
  let chars := String.list_ascii_of_string s in
  let plain c := space c = false ∧ c ≠ "@"%char in
  (test (emailPattern space) s = true
   ↔ ∃ loc name tld,
       chars = loc ++ "@"%char :: name ++ "."%char :: tld ∧
       loc ≠ [] ∧ name ≠ [] ∧ tld ≠ [] ∧
       Forall plain loc ∧ Forall plain name ∧ Forall plain tld) ∧
  (test (emailPattern space) s = true →
     length (List.filter (Ascii.eqb "@"%char) chars) = 1%nat).
Proof.
  intros chars plain.
  assert (Hiff : test (emailPattern space) s = true
            ↔ ∃ loc name tld,
                chars = loc ++ "@"%char :: name ++ "."%char :: tld ∧
                loc ≠ [] ∧ name ≠ [] ∧ tld ≠ [] ∧
                Forall plain loc ∧ Forall plain name ∧ Forall plain tld).
  { unfold test. fold chars. rewrite accepts_matches. unfold emailPattern.
    assert (Hplain : ∀ w, Forall (λ c, negb (space c) && negb (Ascii.eqb c "@"%char)
                                       = true) w ↔ Forall plain w).
    { intros w. apply Forall_proper; [|done]. intros c. apply plain_char. }
    split.
    - intros (loc & rest & -> & [Hloc Hl]%matches_plus_class & Hrest)%matches_cat_iff.
      apply matches_cat_iff in Hrest as (at_ & rest' & -> & Hat & Hrest).
      apply matches_class_iff in Hat as (c & -> & Hc%Ascii.eqb_eq). subst c.
      apply matches_cat_iff in Hrest
        as (name & rest'' & -> & [Hname Hn]%matches_plus_class & Hrest).
      apply matches_cat_iff in Hrest as (dot & tld & -> & Hdot & [Htld Ht]%matches_plus_class).
      apply matches_class_iff in Hdot as (c & -> & Hc%Ascii.eqb_eq). subst c.
      exists loc, name, tld. rewrite <- !Hplain. by split_and!.
    - intros (loc & name & tld & -> & Hloc & Hname & Htld & Hl & Hn & Ht).
      apply matches_cat_iff. exists loc, ("@"%char :: name ++ "."%char :: tld).
      split_and!; [done|by apply matches_plus_class; rewrite Hplain|].
      apply matches_cat_iff. exists ["@"%char], (name ++ "."%char :: tld).
      split_and!; [done|by constructor|].
      apply matches_cat_iff. exists name, ("."%char :: tld).
      split_and!; [done|by apply matches_plus_class; rewrite Hplain|].
      apply matches_cat_iff. exists ["."%char], tld.
      split_and!; [done|by constructor|by apply matches_plus_class; rewrite Hplain]. }
  split; [done|].
  intros (loc & name & tld & -> & _ & _ & _ & Hl & Hn & Ht)%Hiff.
  assert (Hno : ∀ w, Forall plain w → List.filter (Ascii.eqb "@"%char) w = []).
  { induction 1 as [|c w [_ Hc] _ IH]; [done|]. cbn [List.filter].
    destruct (Ascii.eqb_spec "@"%char c) as [Heq|_]; [by destruct Hc|done]. }
  rewrite List.filter_app. cbn [List.filter]. rewrite Ascii.eqb_refl.
  rewrite List.filter_app. cbn [List.filter].
  change (Ascii.eqb "@"%char "."%char) with false. cbv iota.
  by rewrite !Hno.
Qed.

Lemma emailPattern_accepts_witness :
  test (emailPattern Ascii.is_space) "a@x.com" = true ∧
  test (emailPattern Ascii.is_space) "a@b@x.com" = false.
Proof.
  split.
  - apply (emailPattern_accepts_local_at_domain Ascii.is_space "a@x.com").
    exists ["a"%char], ["x"%char], ["c"%char; "o"%char; "m"%char].
    split_and!; try done; repeat constructor; done.
  - destruct (test (emailPattern Ascii.is_space) "a@b@x.com") eqn:Htest; [|done].
    by apply (emailPattern_accepts_local_at_domain Ascii.is_space "a@b@x.com")
      in Htest.
Defined.

(** ** Requesting a verification in the variant *)

Section WsRequest.

Variable trim : string → string.
Variable space : Ascii.ascii → bool.

Lemma ws_sendVerificationEmail_valid (st : State) (e tok : string) (now : Z)
    (relay : WsVariant.MailResult) :
  test (emailPattern space) e = true →
  let r := WsVariant.sendVerificationEmail space e tok now relay st in
  r.1.1 = set_pendingVerifications
            (<[e := {| token := tok; timestamp := now |}]>
               (pendingVerifications st)) st ∧
  r.2 = match relay with
        | WsVariant.MailError _ msg => WsVariant.Rejected msg
        | WsVariant.MailSent _ => WsVariant.Resolved true
        end.
Proof.
  intros Hvalid. unfold WsVariant.sendVerificationEmail. rewrite Hvalid.
  by destruct relay.
Qed.

(** X16. In the variant the answer to a verification request tells whether
    the mail went out: 200 when the relay took it, 500 when the relay
    failed, 400 for a malformed or already subscribed address.  The store
    changes exactly when the address passes both checks, and then the fresh
    token is registered whether or not the relay took the mail; the answer
    "Failed to send verification email." is never given. *)
Theorem ws_requestVerification_answers_by_delivery
    (st : State) (email : option string) (e tok : string) (now : Z)
    (relay : WsVariant.MailResult) :
  truthy (trim <$> email) = Some e →
  let r := WsVariant.requestVerification trim space email tok now relay st in
  (test (emailPattern space) e = false →
     r.1.1 = st ∧ r.2 = WsVariant.JsonReply 400 false "Invalid email format.") ∧
  (test (emailPattern space) e = true → is_Some (subscriptions st !! e) →
     r.1.1 = st ∧
     r.2 = WsVariant.JsonReply 400 false "Email already subscribed.") ∧
  (test (emailPattern space) e = true → subscriptions st !! e = None →
     r.1.1 = set_pendingVerifications
               (<[e := {| token := tok; timestamp := now |}]>
                  (pendingVerifications st)) st ∧
     r.2 = match relay with
           | WsVariant.MailSent _ =>
               WsVariant.JsonReply 200 true
                 "Verification email sent. Check inbox/spam."
           | WsVariant.MailError _ _ =>
               WsVariant.JsonReply 500 false "Server error."
           end) ∧
  r.2 ≠ WsVariant.JsonReply 400 false "Failed to send verification email.".
Proof.
  intros He r. subst r. unfold WsVariant.requestVerification. rewrite He.
  destruct (test (emailPattern space) e) eqn:Hvalid; simpl; [|by split_and!].
  destruct (bool_decide (is_Some (subscriptions st !! e))) eqn:Hsub;
    decide_hyps.
  - split_and!; try done. intros _ Hnone. rewrite Hnone in Hsub. by destruct Hsub.
  - destruct (ws_sendVerificationEmail_valid st e tok now relay Hvalid)
      as [Hst Hsettled].
    destruct (WsVariant.sendVerificationEmail space e tok now relay st)
      as [[st' effects] settled].
    simpl in Hst, Hsettled. subst st' settled.
    destruct relay; simpl; split_and!; try done; by intros _ ?.
Qed.

(** X17. The test endpoint of the variant registers a pending verification
    for whatever well-formed address it is given, subscribed or not, and for
    [test@example.com] when none is given; a malformed address gets the 400
    answer and changes nothing. *)
Theorem ws_testVerification_registers_any_address
    (st : State) (email : option string) (tok : string) (now : Z)
    (relay : WsVariant.MailResult) :
  let address := default "test@example.com" (truthy email) in
  let r := WsVariant.testVerification space email tok now relay st in
  (test (emailPattern space) address = false →
     r.1.1 = st ∧
     r.2 = WsVariant.JsonReply 400 false "Failed to send test email.") ∧
  (test (emailPattern space) address = true →
     pendingVerifications r.1.1 !! address
     = Some {| token := tok; timestamp := now |} ∧
     subscriptions r.1.1 = subscriptions st ∧
     r.2 = match relay with
           | WsVariant.MailSent _ => WsVariant.JsonReply 200 true "Test email sent."
           | WsVariant.MailError _ _ =>
               WsVariant.JsonReply 500 false "Server error."
           end).
Proof.
  intros address r. subst r. unfold WsVariant.testVerification. fold address.
  destruct (test (emailPattern space) address) eqn:Hvalid.
  - destruct (ws_sendVerificationEmail_valid st address tok now relay Hvalid)
      as [Hst Hsettled].
    destruct (WsVariant.sendVerificationEmail space address tok now relay st)
      as [[st' effects] settled].
    simpl in Hst, Hsettled. subst st' settled. split; [done|]. intros _.
    destruct relay; simpl; by rewrite lookup_insert_eq.
  - unfold WsVariant.sendVerificationEmail. rewrite Hvalid. simpl. by split.
Qed.

End WsRequest.

Lemma ws_requestVerification_answers_witness :
  let r := WsVariant.requestVerification Example.trim Ascii.is_space
             (Some " a@x.com ") "c0ffee" Example.hour
             (WsVariant.MailError "EAUTH" "535 rejected") initialState in
  r.2 = WsVariant.JsonReply 500 false "Server error." ∧
  pendingVerifications r.1.1 !! "a@x.com"
  = Some {| token := "c0ffee"; timestamp := Example.hour |} ∧
  (WsVariant.requestVerification Example.trim Ascii.is_space
     (Some "a@x") "c0ffee" Example.hour (WsVariant.MailSent "250 OK")
     initialState).2
  = WsVariant.JsonReply 400 false "Invalid email format.".
Proof.
  intros r.
  pose proof (ws_requestVerification_answers_by_delivery Example.trim
                Ascii.is_space initialState (Some " a@x.com ") "a@x.com"
                "c0ffee" Example.hour (WsVariant.MailError "EAUTH" "535 rejected")
                ltac:(by vm_compute)) as (_ & _ & Hsent & _).
  pose proof (ws_requestVerification_answers_by_delivery Example.trim
                Ascii.is_space initialState (Some "a@x") "a@x"
                "c0ffee" Example.hour (WsVariant.MailSent "250 OK")
                ltac:(by vm_compute)) as (Hbad & _).
  destruct Hsent as [Hst Hresp]; [by vm_compute|done|].
  destruct Hbad as [_ Hbad]; [by vm_compute|].
  fold r in Hst, Hresp. split_and!; [done| |done].
  rewrite Hst. apply lookup_insert_eq.
Defined.

(** ** The push connection *)

Lemma hasId_filter_idem (items : list StockItem) :
  List.filter WsVariant.hasId (List.filter WsVariant.hasId items)
  = List.filter WsVariant.hasId items.
Proof.
  apply filter_all. intros item Hin.
  rewrite list_elem_of_In, filter_In in Hin. by destruct Hin.
Qed.

Lemma keepIdentified_from (categories : list string) (data : StockData)
    (c : string) :
  foldl (λ data category,
           match data !! category with
           | Some items => <[category := List.filter WsVariant.hasId items]> data
           | None => data
           end) data categories !! c
  = if bool_decide (c ∈ categories)
    then List.filter WsVariant.hasId <$> data !! c
    else data !! c.
Proof.
  revert data. induction categories as [|c' cs IH]; intros data; [done|].
  cbn [foldl]. rewrite IH.
  assert (Hstep : (match data !! c' with
                   | Some items => <[c' := List.filter WsVariant.hasId items]> data
                   | None => data
                   end) !! c
                  = if bool_decide (c = c')
                    then List.filter WsVariant.hasId <$> data !! c
                    else data !! c).
  { destruct (decide (c = c')) as [->|Hne].
    - rewrite bool_decide_eq_true_2 by done.
      destruct (data !! c') as [items|] eqn:Hd; [|by rewrite Hd].
      by rewrite lookup_insert_eq.
    - rewrite bool_decide_eq_false_2 by done.
      destruct (data !! c'); [by rewrite lookup_insert_ne|done]. }
  rewrite Hstep.
  destruct (decide (c = c')) as [->|Hne].
  - rewrite (bool_decide_eq_true_2 (c' = c')) by done.
    rewrite (bool_decide_eq_true_2 (c' ∈ c' :: cs)) by left.
    destruct (bool_decide (c' ∈ cs)); [|done].
    destruct (data !! c') as [items|]; [|done]. simpl.
    by rewrite hasId_filter_idem.
  - rewrite (bool_decide_eq_false_2 (c = c')) by done.
    rewrite (bool_decide_ext (c ∈ c' :: cs) (c ∈ cs)); [done|].
    rewrite elem_of_cons. split; [|by right]. by intros [?|?].
Qed.

Lemma foldl_ext_elem {A B} (f g : A → B → A) (l : list B) (a : A) :
  (∀ a b, b ∈ l → f a b = g a b) → foldl f a l = foldl g a l.
Proof.
  revert a. induction l as [|b l IH]; intros a Hfg; [done|]. simpl.
  rewrite Hfg by left. apply IH. intros a' b' Hb'. apply Hfg. by right.
Qed.

Section WsFeed.

Variable stringifyStock : StockData → string.

Lemma keepIdentified_lookup (data : StockData) (c : string) :
  WsVariant.keepIdentified data !! c
  = if bool_decide (c ∈ WsVariant.stockCategories)
    then List.filter WsVariant.hasId <$> data !! c
    else data !! c.
Proof. apply keepIdentified_from. Qed.

(** The composer of the variant reads the same entries off a snapshot and
    off its identified part. *)
Lemma ws_allStockItems_keepIdentified (data : StockData) :
  WsVariant.allStockItems (WsVariant.keepIdentified data)
  = WsVariant.allStockItems data.
Proof.
  unfold WsVariant.allStockItems. apply foldl_ext_elem.
  intros acc c Hc. rewrite keepIdentified_lookup, bool_decide_eq_true_2 by done.
  destruct (data !! c) as [items|]; [|done]. simpl.
  by rewrite hasId_filter_idem.
Qed.

Lemma ws_inStockItems_hasId (watch : gset string) (data : StockData) :
  List.filter WsVariant.hasId (WsVariant.inStockItems watch data)
  = WsVariant.inStockItems watch data.
Proof.
  apply filter_all. intros item Hin. unfold WsVariant.inStockItems in Hin.
  rewrite list_elem_of_In, filter_In, <- list_elem_of_In in Hin.
  destruct Hin as [Hin _]. by apply ws_allStockItems_elem in Hin as [_ ?].
Qed.

Lemma ws_buildStockHtmlEmail_Some (st : State) (data : StockData) (email : string) :
  WsVariant.buildStockHtmlEmail st data email
  = watch ← subscriptions st !! email;
    if bool_decide (WsVariant.inStockItems watch data ≠ [])
    then Some (StockBody (WsVariant.stockRow (itemInfo st)
                            <$> WsVariant.inStockItems watch data) email)
    else None.
Proof.
  unfold WsVariant.buildStockHtmlEmail.
  destruct (subscriptions st !! email) as [watch|]; [|done]. simpl.
  rewrite ws_inStockItems_hasId. by destruct (WsVariant.inStockItems watch data).
Qed.

Lemma feedMailsOf_stockFanout (st : State) (data : StockData) :
  WsVariant.feedMailsOf (WsVariant.stockFanout st data)
  = omap (wsStockMailFor st data) (map_to_list (subscriptions st)).
Proof.
  unfold WsVariant.stockFanout, WsVariant.feedMailsOf.
  induction (map_to_list (subscriptions st)) as [|kv l IH]; [done|].
  rewrite bind_cons, omap_app, IH. cbn [omap list_omap].
  unfold wsStockMailFor at 2.
  by destruct (WsVariant.buildStockHtmlEmail st data kv.1).
Qed.

Lemma ws_stockFanout_count (st : State) (data : StockData) (email : string) :
  mailsTo email (WsVariant.feedMailsOf (WsVariant.stockFanout st data))
  = match subscriptions st !! email with
    | Some watch =>
        if bool_decide (WsVariant.inStockItems watch data ≠ [])
        then 1%nat else 0%nat
    | None => 0%nat
    end.
Proof.
  assert (Hto : ∀ kv m, wsStockMailFor st data kv = Some m → mail_to m = kv.1).
  { intros kv m. unfold wsStockMailFor.
    destruct (WsVariant.buildStockHtmlEmail _ _ _); [|done]. by intros [= <-]. }
  rewrite feedMailsOf_stockFanout.
  destruct (subscriptions st !! email) as [watch|] eqn:Hsub.
  - rewrite (mailsTo_omap_present _ _ email watch Hto).
    + unfold wsStockMailFor. rewrite ws_buildStockHtmlEmail_Some. simpl.
      rewrite Hsub. simpl. by destruct (bool_decide _).
    + apply NoDup_fst_map_to_list.
    + by apply elem_of_map_to_list.
  - apply (mailsTo_omap_absent _ _ _ Hto).
    rewrite elem_of_keys, Hsub. by intros [? ?].
Qed.

(** X18. A stock message of the push connection that differs from the
    last one is stored without the entries lacking an identifier (the
    serialized form kept for comparison is that of the message as
    received), and every subscriber with a watched, identified item in
    stock is sent exactly one mail, nobody else any.  A message equal to the
    last one, or one that does not parse, changes nothing and sends
    nothing. *)
Theorem onMessage_stores_identified_and_fans_out_once
    (st : State) (parsed : option StockData) :
  let r := WsVariant.onMessage stringifyStock parsed st in
  (∀ newData,
     parsed = Some newData →
     latestStockDataJSON st ≠ Some (stringifyStock newData) →
     latestStockDataJSON r.1 = Some (stringifyStock newData) ∧
     latestStockDataObj r.1 = Some (WsVariant.keepIdentified newData) ∧
     (∀ category items,
        category ∈ WsVariant.stockCategories →
        WsVariant.keepIdentified newData !! category = Some items →
        ∃ received,
          newData !! category = Some received ∧
          items = List.filter WsVariant.hasId received) ∧
     ∀ email,
       mailsTo email (WsVariant.feedMailsOf r.2)
       = match subscriptions st !! email with
         | Some watch =>
             if bool_decide (WsVariant.inStockItems watch newData ≠ [])
             then 1%nat else 0%nat
         | None => 0%nat
         end) ∧
  (parsed = None ∨
   (∃ newData, parsed = Some newData ∧
               latestStockDataJSON st = Some (stringifyStock newData)) →
   r.1 = st ∧ WsVariant.feedMailsOf r.2 = []).
Proof.
  intros r. subst r. split.
  - intros newData -> Hch. unfold WsVariant.onMessage.
    rewrite (proj2 (hasDataChanged_true _ _) Hch). cbn [fst snd].
    split_and!; [done|done| |].
    + intros c items Hc. rewrite keepIdentified_lookup, bool_decide_eq_true_2 by done.
      destruct (newData !! c) as [received|]; [|done]. intros [= <-]. eauto.
    + intros email.
      change (WsVariant.feedMailsOf (WsVariant.FeedLog_ WsVariant.LogStockMessage :: ?l))
        with (WsVariant.feedMailsOf l).
      rewrite ws_stockFanout_count. cbn [subscriptions set_stock].
      destruct (subscriptions st !! email) as [watch|]; [|done].
      unfold WsVariant.inStockItems. by rewrite ws_allStockItems_keepIdentified.
  - intros [->|(newData & -> & Hsame)]; [done|].
    unfold WsVariant.onMessage.
    by rewrite (proj2 (hasDataChanged_false _ _) Hsame).
Qed.

End WsFeed.

(** ** Retries *)









Section WsWeatherRetries.

Variable stringifyWeather : WeatherData → string.







End WsWeatherRetries.


Lemma ws_buildStockHtmlEmail_selects_witness :
  WsVariant.inStockItems {[ "A"; "B" ]} Example.stockUnidentified
  = [Example.item "A" 3] ∧
  WsVariant.buildStockHtmlEmail Example.watchingAB Example.stockUnidentified
    "a@x.com"
  = Some (StockBody
            [{| row_name := "A";
                row_icon := "https://api.joshlei.com/v2/growagarden/image/A";
                row_qty := 3 |}] "a@x.com").
Proof.
  assert (Hchosen : WsVariant.inStockItems {[ "A"; "B" ]} Example.stockUnidentified
                    = [Example.item "A" 3]) by (by vm_compute).
  split; [exact Hchosen|].
  destruct (ws_buildStockHtmlEmail_selects Example.watchingAB
              Example.stockUnidentified "a@x.com" {[ "A"; "B" ]}
              ltac:(by vm_compute)) as (_ & _ & Hmsg).
  rewrite Hmsg; by rewrite Hchosen.
Defined.

(** * What a stock mail never shows *)

Lemma or_else_nonempty (a : option string) (d : string) :
  d ≠ "" → or_else a d ≠ "".
Proof.
  intros Hd. destruct a as [s|]; simpl; [|done].
  by destruct (String.eqb_spec s "").
Qed.

Section StockMail.

Variable stringifyStock : StockData → string.

(** X22. A stock mail is never empty: it has at least one row, and every
    row shows a positive quantity and a name, the display name of the item
    or else its identifier. *)
Theorem stock_mail_rows_are_in_stock (st : State)
    (resp : FetchResult StockData) (infoResp : FetchResult (list RawItemInfo))
    (m : Mail) :
  m ∈ mailsOf (pollStockAPI stringifyStock resp infoResp st).2 →
  ∃ rows,
    mail_html m = StockBody rows (mail_to m) ∧
    rows ≠ [] ∧
    Forall (λ row, 0 < row_qty row ∧ row_name row ≠ "") rows.
Proof.
  unfold pollStockAPI. destruct resp as [data|msg]; [|by intros ?%elem_of_nil].
  destruct (hasDataChanged _ _); [|by intros ?%elem_of_nil].
  assert (Hrows : ∀ st2, m ∈ mailsOf (stockFanout st2 data) →
            ∃ rows, mail_html m = StockBody rows (mail_to m) ∧ rows ≠ [] ∧
                    Forall (λ row, 0 < row_qty row ∧ row_name row ≠ "") rows).
  { intros st2 (_ & watch & _ & Hne & ->)%stockFanout_mails.
    eexists. split; [done|]. split.
    - intros Hnil%fmap_nil_inv. done.
    - apply Forall_fmap, Forall_forall. intros item Hin. simpl.
      unfold inStockItems in Hin.
      rewrite list_elem_of_In, filter_In in Hin. destruct Hin as [_ Hsel].
      apply selected_spec in Hsel as [_ Hq]. split; [done|].
      by apply or_else_nonempty, or_else_nonempty. }
  destruct (bool_decide _).
  - destruct (fetchItemInfo infoResp _) as [st2 fetched] eqn:Hf.
    cbn [snd]. unfold mailsOf. cbn [omap list_omap]. rewrite omap_app.
    assert (Hnone : omap (λ e, match e with
                               | SendMail m => Some m
                               | Log _ => None
                               end) fetched = []).
    { change fetched with (st2, fetched).2. rewrite <- Hf. by destruct infoResp. }
    rewrite Hnone. apply Hrows.
  - cbn [snd]. apply Hrows.
Qed.

End StockMail.

Lemma stock_mail_rows_are_in_stock_witness :
  ∃ rows,
    StockBody [{| row_name := "A";
                  row_icon := "https://image.joshlei.com/A.png";
                  row_qty := 3 |}] "a@x.com"
    = StockBody rows "a@x.com" ∧
    rows ≠ [] ∧
    Forall (λ row, 0 < row_qty row ∧ row_name row ≠ "") rows.
Proof.
  apply (stock_mail_rows_are_in_stock Example.stringifyStock Example.watchingAB
           (FetchOk Example.stockABC) (FetchError "offline")
           {| mail_to := "a@x.com"; mail_subject := SubjStockUpdated;
              mail_html :=
                StockBody [{| row_name := "A";
                              row_icon := "https://image.joshlei.com/A.png";
                              row_qty := 3 |}] "a@x.com" |}).
  vm_compute. left.
Defined.
